(** * invoke.js: the transaction-submission workflow

    A shallow embedding of [src/invoke.js] (hyperledger-fabric-client-utils).
    The function [invoke] deduplicates the caller's peers, broadcasts a
    proposal, evaluates the first endorsement, and then runs two concurrent
    legs (ordering submission and a commit-event listener with a deadline
    timer) whose results it reconciles into one verdict.

    Collaborators that live outside the file (the fabric client, the
    channel, the event hub, timers) are modelled by the trace of calls the
    code makes on them and by the answers the environment gives back. *)

From Stdlib Require Import List String Ascii Bool Arith NArith ZArith Lia.
From Stdlib Require Import Permutation.
Import ListNotations.
Open Scope string_scope.

(** ** JavaScript objects used as maps

    [peersMap] is a plain object literal indexed by [peer.cn].  Its own
    properties are kept in creation order; an assignment to an existing key
    overwrites the value in place.  Two keys behave specially on a plain
    object:
    - a canonical array index (the decimal text of an integer below
      2^32 - 1) is enumerated before every other key, in ascending numeric
      order (OrdinaryOwnPropertyKeys);
    - [__proto__] is an accessor inherited from [Object.prototype]: the
      assignment swaps the prototype and creates no own property. *)

Module JsObject.

Definition is_digit (c : ascii) : bool :=
  (48 <=? nat_of_ascii c)%nat && (nat_of_ascii c <=? 57)%nat.

Fixpoint digits_value (s : string) (acc : N) : option N :=
  match s with
  | EmptyString => Some acc
  | String c t =>
      if is_digit c
      then digits_value t (10 * acc + (N_of_ascii c - 48))%N
      else None
  end.

(** [array_index k] is [Some n] when [k] is the canonical decimal text of
    an array index [n]. *)
Definition array_index (k : string) : option N :=
  match k with
  | EmptyString => None
  | String c t =>
      if Ascii.eqb c "0"%char
      then match t with EmptyString => Some 0%N | _ => None end
      else match digits_value k 0 with
           | Some n => if (n <? 4294967295)%N then Some n else None
           | None => None
           end
  end.

Definition is_index (k : string) : bool :=
  match array_index k with Some _ => true | None => false end.

Definition proto_key : string := "__proto__".

(** A key that is stored as an ordinary named property. *)
Definition ordinary_key (k : string) : bool :=
  negb (is_index k) && negb (String.eqb k proto_key).

Section Props.

Variable V : Type.

(** Own enumerable properties, in creation order. *)
Definition t := list (string * V).

Definition empty : t := [].

Fixpoint put (k : string) (v : V) (o : t) : t :=
  match o with
  | [] => [(k, v)]
  | (k', v') :: rest =>
      if String.eqb k k' then (k, v) :: rest else (k', v') :: put k v rest
  end.

(** [o[k] = v] *)
Definition set (k : string) (v : V) (o : t) : t :=
  if String.eqb k proto_key then o else put k v o.

Fixpoint get (k : string) (o : t) : option V :=
  match o with
  | [] => None
  | (k', v') :: rest => if String.eqb k k' then Some v' else get k rest
  end.

Definition index_of_entry (e : string * V) : N :=
  match array_index (fst e) with Some n => n | None => 0%N end.

Fixpoint insert_by_index (e : string * V) (l : list (string * V)) :=
  match l with
  | [] => [e]
  | e' :: rest =>
      if (index_of_entry e <=? index_of_entry e')%N
      then e :: l
      else e' :: insert_by_index e rest
  end.

Definition sort_by_index (l : list (string * V)) : list (string * V) :=
  fold_right insert_by_index [] l.

(** Enumeration order of the own properties: array indices in ascending
    order, then the other keys in creation order. *)
Definition entries (o : t) : list (string * V) :=
  sort_by_index (filter (fun e => is_index (fst e)) o)
    ++ filter (fun e => negb (is_index (fst e))) o.

(** [Object.values(o)] *)
Definition values (o : t) : list V := map snd (entries o).

Definition keys (o : t) : list string := map fst (entries o).

End Props.

Arguments empty {V}.
Arguments put {V}.
Arguments set {V}.
Arguments get {V}.
Arguments entries {V}.
Arguments values {V}.
Arguments keys {V}.
Arguments insert_by_index {V}.
Arguments sort_by_index {V}.
Arguments index_of_entry {V}.

End JsObject.

(** ** Peers and the peer registry (lines 21-29) *)

Record Peer := mkPeer {
  cn : string;
  url : string;
  broadcastUrl : string;
  adminUserId : string
}.

(** [peersMap] after the [forEach] loop; an absent or null list counts as
    the empty list ([peers = []] default and [peers || []]). *)
Definition peersMap (peers : option (list Peer)) : JsObject.t Peer :=
  fold_left (fun o peer => JsObject.set (cn peer) peer o)
            (match peers with Some ps => ps | None => [] end)
            JsObject.empty.

Definition uniquePeers (peers : option (list Peer)) : list Peer :=
  JsObject.values (peersMap peers).

(** Order of first occurrence, and the last descriptor of an identity:
    the two notions the registry is described with. *)
Fixpoint first_occurrences (l : list string) : list string :=
  match l with
  | [] => []
  | x :: rest => x :: filter (fun y => negb (String.eqb y x)) (first_occurrences rest)
  end.

Definition last_with_cn (c : string) (ps : list Peer) : option Peer :=
  find (fun p => String.eqb (cn p) c) (rev ps).

(** ** Values, errors and promises *)

(** Values thrown or used as rejection reasons. *)
Inductive JsError :=
| NewError (message : string)   (* new Error(message) *)
| TypeError                     (* a property read on undefined *)
| Rejection (reason : string)   (* the reason a collaborator rejected with *)
| Unserialisable (reason : string).
    (* a collaborator's reason on which JSON.stringify throws: a cyclic
       object, a BigInt *)

(** [JSON.stringify(err)] returns.  An [Error] object has no enumerable
    property of its own and gives the text of an empty object. *)
Definition stringifies (e : JsError) : bool :=
  match e with
  | Unserialisable _ => false
  | _ => true
  end.

(** How a collaborator's promise settles. *)
Inductive Result (A : Type) :=
| Resolve (a : A)
| Reject (e : JsError).
Arguments Resolve {A}.
Arguments Reject {A}.

Inductive Promise (A : Type) :=
| Pending
| Resolved (a : A)
| Rejected (e : JsError).
Arguments Pending {A}.
Arguments Resolved {A}.
Arguments Rejected {A}.

(** Settling an already settled promise changes nothing. *)
Definition settle {A} (p new : Promise A) : Promise A :=
  match p with Pending => new | _ => p end.

Definition is_settled {A} (p : Promise A) : bool :=
  match p with Pending => false | _ => true end.

Definition promise_of {A} (r : Result A) : Promise A :=
  match r with Resolve a => Resolved a | Reject e => Rejected e end.

(** lines 205-208, the final [catch]: it logs [JSON.stringify(err)] and
    then calls [reject(err)].  When the error cannot be serialised the
    callback throws before it rejects, and the returned promise is never
    settled. *)
Definition final_catch {A} (e : JsError) : Promise A :=
  if stringifies e then Rejected e else Pending.

(** What the language runtime and the helper modules of the repository
    ([utils/serializeArg], [fabric/parseErrorMessage]) provide.  [JSON_parse]
    is [None] where [JSON.parse] throws; [json_to_string] is the text
    [new Error(v)] takes as its message; [serializeArg] is [None] for
    [undefined]; [parseErrorMessage] gives the message of the [Error] the
    helper returns. *)
Class Runtime := {
  Json : Type;
  JSON_parse : string -> option Json;
  json_truthy : Json -> bool;
  json_to_string : Json -> string;
  Arg : Type;
  serializeArg : Arg -> option string;
  parseErrorMessage : string -> string
}.

Definition MAX_RETRIES_EVENT_HUB : nat := 5.
Definition MAX_TIMEOUT : N := 30000.

(** [String(o)] for a plain object [o]. *)
Definition object_to_string : string := "[object Object]".

Definition no_peers_message : string := "No endorser peers provided.".

Definition timeout_message : string :=
  "Transaction did not complete within the allowed time".

Definition generic_proposal_message : string :=
  "Failed to send Proposal or receive valid response. "
    ++ "Response null or status is not 200. exiting...".

Definition eventhub_message (err : string) : string :=
  "There was a problem with the eventhub: " ++ err ++ " ".

(** [results.status] is read on the array of results, hence [undefined]. *)
Definition order_failure_message : string :=
  "Failed to order the transaction.Error code: " ++ "undefined" ++ " ".

Definition commit_failure_message (event_status : string) : string :=
  "Transaction failed to be committed to the ledger due to: "
    ++ event_status ++ ".".

(** The separator of [errors.join]. *)
Definition newline : string := String "010"%char "".

(** [lodash.droprightwhile] *)
Fixpoint dropRightWhile {A} (f : A -> bool) (l : list A) : list A :=
  match l with
  | [] => []
  | x :: rest =>
      match dropRightWhile f rest with
      | [] => if f x then [] else [x]
      | kept => x :: kept
      end
  end.

(** ** Messages exchanged with the network *)

Record Response := mkResponse {
  status : Z;
  payload : string;
  response_message : string
}.

(** One entry of [proposalResponses]: an endorsement carrying [response],
    or an error carrying [message]. *)
Record ProposalResponse := mkProposalResponse {
  response : option Response;
  message : option string
}.

Record BroadcastResponse := mkBroadcastResponse { order_status : string }.

Record ReturnStatus := mkReturnStatus {
  event_status : string;
  tx_id : string
}.

Record Request := mkRequest {
  chaincodeId : string;
  fcn : string;
  args : list (option string);
  txId : string
}.

(** Calls made on the collaborators, in the order they are made. *)
Inductive Call :=
| CreateFabricClient (peers : list Peer) (orderer channelId : string)
| SetUserContext (user : string)
| NewTransactionID
| SendTransactionProposal (request : Request)
| LoadPeerCert (peer : Peer)
| SendTransaction
| NewEventHub
| SetPeerAddr (url : string)
| SetTimeout (ms : N)
| ClearTimeout
| Connect
| Disconnect
| RegisterTxEvent (txid : string)
| UnregisterTxEvent (txid : string)
| SetTimeoutStartListening
| TxPromiseResolve (r : ReturnStatus)
| TxPromiseReject (e : JsError).

(** Answers of the collaborators awaited one after the other, and what
    the event hub does when [disconnect] is called while a registration is
    in place: [Some err] when it reports its shutdown by calling the
    registered error callback with [err] before [disconnect] returns (the
    event hub of fabric-client does), [None] when it calls nothing. *)
Record Env := mkEnv {
  env_createFabricClient : Result unit;
  env_setUserContext : Result unit;
  env_transaction_id : string;
  env_sendTransactionProposal : Result (option (list ProposalResponse));
  env_loadPeerCert : Result unit;
  env_hub_shutdown : option string
}.

(** What can happen, in any order, once both legs are in flight. *)
Inductive Event :=
| EvSend (r : Result (option BroadcastResponse))  (* sendTransaction settles *)
| EvAdminContext (r : Result unit)    (* setUserContext(adminUserId) settles *)
| EvCommit (code : string)            (* the hub calls the onEvent callback *)
| EvHubError (err : string)           (* the hub calls the onError callback *)
| EvTimer                             (* the deadline timer fires *)
| EvStartListening.                   (* a setTimeout(startListening, 0) fires *)

Inductive Timer := TimerNotStarted | TimerArmed | TimerCleared | TimerFired.

(** A sequential chain of awaited calls: the trace so far in, the trace and
    either a value or the rejection out. *)
Definition Chain (A : Type) : Type := list Call -> list Call * Result A.

Definition ret {A} (a : A) : Chain A := fun tr => (tr, Resolve a).

Definition throw {A} (e : JsError) : Chain A := fun tr => (tr, Reject e).

Definition bind {A B} (m : Chain A) (k : A -> Chain B) : Chain B :=
  fun tr =>
    match m tr with
    | (tr', Resolve a) => k a tr'
    | (tr', Reject e) => (tr', Reject e)
    end.

Definition call {A} (c : Call) (answer : Result A) : Chain A :=
  fun tr => ((tr ++ [c])%list, answer).

Notation "x <- m ;; k" := (bind m (fun x => k))
  (at level 61, m at next level, right associativity).

(** ** The listener leg and the two concurrent promises (lines 107-169) *)

Record Listener := mkListener {
  admin_pending : bool;      (* setUserContext(adminUserId) not yet settled *)
  timer : Timer;             (* [handle] *)
  retries : nat;
  registered : bool;         (* a tx-event registration is in place *)
  connected : bool;
  rearm : nat;               (* pending setTimeout(startListening, 0) *)
  txPromise : Promise ReturnStatus;
  sendPromise : Promise (option BroadcastResponse);
  allPromise : Promise (option BroadcastResponse * ReturnStatus);
  trace : list Call
}.

Definition emit (c : Call) (st : Listener) : Listener :=
  mkListener (admin_pending st) (timer st) (retries st) (registered st)
    (connected st) (rearm st) (txPromise st) (sendPromise st) (allPromise st)
    (trace st ++ [c])%list.

Definition with_admin_pending (b : bool) (st : Listener) : Listener :=
  mkListener b (timer st) (retries st) (registered st)
    (connected st) (rearm st) (txPromise st) (sendPromise st) (allPromise st)
    (trace st).

Definition with_timer (t : Timer) (st : Listener) : Listener :=
  mkListener (admin_pending st) t (retries st) (registered st)
    (connected st) (rearm st) (txPromise st) (sendPromise st) (allPromise st)
    (trace st).

Definition with_retries (n : nat) (st : Listener) : Listener :=
  mkListener (admin_pending st) (timer st) n (registered st)
    (connected st) (rearm st) (txPromise st) (sendPromise st) (allPromise st)
    (trace st).

Definition with_registered (b : bool) (st : Listener) : Listener :=
  mkListener (admin_pending st) (timer st) (retries st) b
    (connected st) (rearm st) (txPromise st) (sendPromise st) (allPromise st)
    (trace st).

Definition with_connected (b : bool) (st : Listener) : Listener :=
  mkListener (admin_pending st) (timer st) (retries st) (registered st)
    b (rearm st) (txPromise st) (sendPromise st) (allPromise st)
    (trace st).

Definition with_rearm (n : nat) (st : Listener) : Listener :=
  mkListener (admin_pending st) (timer st) (retries st) (registered st)
    (connected st) n (txPromise st) (sendPromise st) (allPromise st)
    (trace st).

(** [Promise.all([sendPromise, txPromise])]: rejected by the first leg that
    rejects, resolved once both legs are.  It is recomputed after every
    settlement of a leg. *)
Definition promise_all (send : Promise (option BroadcastResponse))
    (tx : Promise ReturnStatus)
    (previous : Promise (option BroadcastResponse * ReturnStatus)) :=
  match previous with
  | Pending =>
      match send, tx with
      | Rejected e, _ => Rejected e
      | _, Rejected e => Rejected e
      | Resolved s, Resolved r => Resolved (s, r)
      | _, _ => Pending
      end
  | _ => previous
  end.

Definition settle_tx (p : Promise ReturnStatus) (st : Listener) : Listener :=
  let tx := settle (txPromise st) p in
  mkListener (admin_pending st) (timer st) (retries st) (registered st)
    (connected st) (rearm st) tx (sendPromise st)
    (promise_all (sendPromise st) tx (allPromise st)) (trace st).

Definition settle_send (p : Promise (option BroadcastResponse))
    (st : Listener) : Listener :=
  let send := settle (sendPromise st) p in
  mkListener (admin_pending st) (timer st) (retries st) (registered st)
    (connected st) (rearm st) (txPromise st) send
    (promise_all send (txPromise st) (allPromise st)) (trace st).

Definition txPromiseResolve (r : ReturnStatus) (st : Listener) : Listener :=
  settle_tx (Resolved r) (emit (TxPromiseResolve r) st).

Definition txPromiseReject (e : JsError) (st : Listener) : Listener :=
  settle_tx (Rejected e) (emit (TxPromiseReject e) st).

Definition clearTimeout (st : Listener) : Listener :=
  let st := emit ClearTimeout st in
  match timer st with
  | TimerArmed => with_timer TimerCleared st
  | _ => st
  end.

Section ListenerCallbacks.

(** [transactionIdString] and [maxTimeout], captured by the callbacks. *)
Variable transactionIdString : string.
Variable maxTimeout : N.

(** What the hub hands to a registered error callback when it is
    disconnected, if anything (see [env_hub_shutdown]). *)
Variable shutdown : option string.

(** lines 132-161: connect and register the two callbacks. *)
Definition startListening (st : Listener) : Listener :=
  with_registered true
    (emit (RegisterTxEvent transactionIdString)
       (with_connected true (emit Connect st))).

(** lines 134-150: the callback for the transaction event.  It
    unregisters before it disconnects, so the hub has no callback of this
    transaction left to call. *)
Definition onEvent (code : string) (st : Listener) : Listener :=
  let st := clearTimeout st in
  let st := with_registered false
              (emit (UnregisterTxEvent transactionIdString) st) in
  let st := with_connected false (emit Disconnect st) in
  let returnStatus := mkReturnStatus code transactionIdString in
  if negb (String.eqb code "VALID")
  then txPromiseReject (NewError object_to_string) st
  else txPromiseResolve returnStatus st.

(** lines 151-160: the callback for a failure of the event registration
    or of the hub. *)
Definition onError (err : string) (st : Listener) : Listener :=
  let st :=
    if (MAX_RETRIES_EVENT_HUB <=? retries st)%nat
    then with_rearm (S (rearm st)) (emit SetTimeoutStartListening st)
    else txPromiseReject (NewError (eventhub_message err)) st in
  with_retries (retries st + 1) st.

(** lines 127-130: the deadline callback.  Nothing unregisters before
    [eventHub.disconnect()], so a hub that reports its shutdown calls the
    error callback of lines 151-160 before [disconnect] returns, and only
    then is the timeout rejection called. *)
Definition onTimeout (st : Listener) : Listener :=
  let st := with_connected false (emit Disconnect st) in
  let st :=
    if registered st
    then match shutdown with
         | Some err => onError err st
         | None => st
         end
    else st in
  txPromiseReject (NewError timeout_message) st.

(** lines 125-164: what happens when the admin identity switch settles. *)
Definition onAdminContext (r : Result unit) (st : Listener) : Listener :=
  match r with
  | Resolve _ =>
      let st := with_timer TimerArmed (emit (SetTimeout maxTimeout) st) in
      let st := with_retries 0 st in
      startListening st
  | Reject err => txPromiseReject err st
  end.

(** One event of the environment.  An event that cannot be delivered in
    the current state (a promise that has settled, a timer that is not
    armed, no pending re-arm, no registration in place) leaves the state as
    it is.  The hub is left free to call a registered callback at any time:
    the code alone decides when a registration ends, by unregistering. *)
Definition step (st : Listener) (ev : Event) : Listener :=
  match ev with
  | EvSend r =>
      match sendPromise st with
      | Pending => settle_send (promise_of r) st
      | _ => st
      end
  | EvAdminContext r =>
      if admin_pending st
      then onAdminContext r (with_admin_pending false st)
      else st
  | EvCommit code => if registered st then onEvent code st else st
  | EvHubError err => if registered st then onError err st else st
  | EvTimer =>
      match timer st with
      | TimerArmed => onTimeout (with_timer TimerFired st)
      | _ => st
      end
  | EvStartListening =>
      match rearm st with
      | S n => startListening (with_rearm n st)
      | O => st
      end
  end.

Definition run (evs : list Event) (st : Listener) : Listener :=
  fold_left step evs st.

(** lines 109-125: both legs are started on top of the trace so far. *)
Definition commitStart (peerForListening : Peer) (tr : list Call) : Listener :=
  mkListener true TimerNotStarted 0 false false 0 Pending Pending Pending
    (tr ++ [SendTransaction; NewEventHub;
            SetPeerAddr (broadcastUrl peerForListening);
            SetUserContext (adminUserId peerForListening)])%list.

End ListenerCallbacks.

(** ** The workflow (lines 13-210) *)

Section Workflow.

Context {rt : Runtime}.

Record Chaincode := mkChaincode {
  chaincode_id : string;
  chaincode_fcn : string;
  chaincode_args : list Arg
}.

(** The argument object of [invoke]; [None] is an absent field. *)
Record InvokeArgs := mkInvokeArgs {
  chaincode : Chaincode;
  channelId : string;
  peers : option (list Peer);
  orderer : string;
  userId : string;
  maxTimeout : option N
}.

(** [transactionProposalResponse]: [null], the parsed payload, or the raw
    payload text. *)
Inductive ProposalValue :=
| PNull
| PParsed (j : Json)
| PRaw (s : string).

Definition truthy (v : ProposalValue) : bool :=
  match v with
  | PNull => false
  | PParsed j => json_truthy j
  | PRaw s => negb (String.eqb s "")
  end.

(** The message [new Error(v)] gets. *)
Definition to_message (v : ProposalValue) : string :=
  match v with
  | PNull => "null"
  | PParsed j => json_to_string j
  | PRaw s => s
  end.

(** lines 69-75 *)
Definition decode (payload : string) : ProposalValue :=
  match JSON_parse payload with
  | Some j => PParsed j
  | None => PRaw payload
  end.

Definition message_truthy (m : option string) : bool :=
  match m with
  | Some s => negb (String.eqb s "")
  | None => false
  end.

(** What lines 64-88 leave in [transactionProposalResponse],
    [isProposalGood] and [proposalError]. *)
Record Evaluation := mkEvaluation {
  transactionProposalResponse : ProposalValue;
  isProposalGood : bool;
  proposalError : option JsError
}.

(** lines 64-88; reading [proposalResponses[0].response] on an empty array
    throws. *)
Definition evaluate (proposalResponses : option (list ProposalResponse))
  : Result Evaluation :=
  match proposalResponses with
  | None => Resolve (mkEvaluation PNull false None)
  | Some [] => Reject TypeError
  | Some (first :: _) =>
      match response first with
      | Some r =>
          Resolve (mkEvaluation (decode (payload r)) (Z.eqb (status r) 200) None)
      | None =>
          if message_truthy (message first)
          then Resolve (mkEvaluation PNull false
                 (Some (NewError
                    (parseErrorMessage
                       (match message first with Some m => m | None => "" end)))))
          else Resolve (mkEvaluation PNull false None)
      end
  end.

(** lines 173-175: the value thrown for a bad proposal. *)
Definition proposalRejection (ev : Evaluation) : JsError :=
  match proposalError ev with
  | Some e => e
  | None =>
      NewError (if truthy (transactionProposalResponse ev)
                then to_message (transactionProposalResponse ev)
                else generic_proposal_message)
  end.

(** lines 177-208: the reconciliation of the two results, with the final
    [catch] turning a thrown error into the rejection. *)
Definition reconcile (response : ProposalValue)
    (result0 : option BroadcastResponse) (result1 : option ReturnStatus)
  : Promise ProposalValue :=
  let transactionSucceeded :=
    match result0 with
    | Some s => String.eqb (order_status s) "SUCCESS"
    | None => false
    end in
  let errors := if transactionSucceeded then [] else [order_failure_message] in
  match result1 with
  | None => Rejected TypeError
  | Some r =>
      let commitSucceeded := String.eqb (event_status r) "VALID" in
      let errors :=
        if commitSucceeded then errors
        else (errors ++ [commit_failure_message (event_status r)])%list in
      if transactionSucceeded && commitSucceeded
      then Resolved response
      else Rejected (NewError (String.concat newline errors))
  end.

(** How the outer promise settles from [Promise.all]: a rejection goes
    to the final [catch], a pair of results to the reconciliation. *)
Definition outcome (response : ProposalValue)
    (all : Promise (option BroadcastResponse * ReturnStatus))
  : Promise ProposalValue :=
  match all with
  | Pending => Pending
  | Rejected e => final_catch e
  | Resolved (s, r) => reconcile response s (Some r)
  end.

Definition request_of (a : InvokeArgs) (txid : string) : Request :=
  mkRequest (chaincode_id (chaincode a)) (chaincode_fcn (chaincode a))
    (dropRightWhile
       (fun arg => match arg with None => true | Some _ => false end)
       (map serializeArg (chaincode_args (chaincode a))))
    txid.

(** lines 36-62: client creation, identity switch, proposal broadcast. *)
Definition broadcast (a : InvokeArgs) (env : Env) (ups : list Peer)
  : Chain (option (list ProposalResponse)) :=
  _ <- call (CreateFabricClient ups (orderer a) (channelId a))
            (env_createFabricClient env) ;;
  _ <- call (SetUserContext (userId a)) (env_setUserContext env) ;;
  _ <- call NewTransactionID (Resolve tt) ;;
  call (SendTransactionProposal (request_of a (env_transaction_id env)))
       (env_sendTransactionProposal env).

(** lines 63-91: evaluation of the endorsement; a good proposal goes on
    to load the certificate of the listening peer. *)
Definition endorse (a : InvokeArgs) (env : Env) (ups : list Peer)
    (peerForListening : Peer) : Chain Evaluation :=
  results <- broadcast a env ups ;;
  match evaluate results with
  | Reject e => throw e
  | Resolve ev =>
      if isProposalGood ev
      then _ <- call (LoadPeerCert peerForListening) (env_loadPeerCert env) ;;
           ret ev
      else throw (proposalRejection ev)
  end.

Definition timeout_of (a : InvokeArgs) : N :=
  match maxTimeout a with Some ms => ms | None => MAX_TIMEOUT end.

(** The whole function: the calls made and the state of the returned
    promise after the events [evs]. *)
Definition invoke (a : InvokeArgs) (env : Env) (evs : list Event)
  : list Call * Promise ProposalValue :=
  match uniquePeers (peers a) with
  | [] => ([], Rejected (NewError no_peers_message))
  | (peerForListening :: _) as ups =>
      match endorse a env ups peerForListening [] with
      | (tr, Reject e) => (tr, final_catch e)
      | (tr, Resolve ev) =>
          let st :=
            run (env_transaction_id env) (timeout_of a)
                (env_hub_shutdown env) evs
                (commitStart peerForListening tr) in
          (trace st, outcome (transactionProposalResponse ev) (allPromise st))
      end
  end.

End Workflow.

(** ** A small runtime for concrete runs

    JSON values without numbers, a parser that knows the payloads used in
    the examples below, arguments that are already text, and a diagnostic
    helper that prefixes the message it is given. *)

Inductive JsonValue :=
| JNull
| JBool (b : bool)
| JString (s : string)
| JObject (fields : list (string * string)).

Definition dquote : string := String (ascii_of_nat 34) "".

Definition porsche_payload : string :=
  "{" ++ dquote ++ "make" ++ dquote ++ ":" ++ dquote ++ "Porsche" ++ dquote ++ "}".

Definition example_parse (s : string) : option JsonValue :=
  if String.eqb s porsche_payload then Some (JObject [("make", "Porsche")])
  else if String.eqb s "null" then Some JNull
  else if String.eqb s "true" then Some (JBool true)
  else if String.eqb s "false" then Some (JBool false)
  else None.

Definition example_truthy (j : JsonValue) : bool :=
  match j with
  | JNull => false
  | JBool b => b
  | JString s => negb (String.eqb s "")
  | JObject _ => true
  end.

Definition example_to_string (j : JsonValue) : string :=
  match j with
  | JNull => "null"
  | JBool true => "true"
  | JBool false => "false"
  | JString s => s
  | JObject _ => object_to_string
  end.

Definition example_runtime : Runtime := {|
  Json := JsonValue;
  JSON_parse := example_parse;
  json_truthy := example_truthy;
  json_to_string := example_to_string;
  Arg := string;
  serializeArg := fun s => Some s;
  parseErrorMessage := fun m => "Error: " ++ m
|}.

(** ** Notions used by the statements below *)

Definition mem (k : string) (l : list string) : bool :=
  existsb (String.eqb k) l.

Definition option_list {A} (o : option A) : list A :=
  match o with Some a => [a] | None => [] end.

(** The loop of lines 22-24 from an arbitrary starting object. *)
Definition assign_all (ps : list Peer) (o : JsObject.t Peer) : JsObject.t Peer :=
  fold_left (fun o peer => JsObject.set (cn peer) peer o) ps o.

(** Every stored descriptor sits under its own identity, and no own
    property is named [__proto__]. *)
Definition keyed (o : JsObject.t Peer) : Prop :=
  Forall (fun e => cn (snd e) = fst e /\ fst e <> JsObject.proto_key) o.

(** The registry as its contract words it: no identity twice, no longer
    than the input, identities in the order they were first seen. *)
Definition deduplicated_first_seen (input output : list Peer) : Prop :=
  NoDup (map cn output)
  /\ List.length output <= List.length input
  /\ map cn output = first_occurrences (map cn input).

(** Each identity at the place of its first occurrence, holding the last
    descriptor given for it. *)
Definition last_descriptor_at_first_place (input : list Peer) : list Peer :=
  flat_map (fun c => option_list (last_with_cn c input))
           (first_occurrences (map cn input)).

Definition all_ordinary (ps : list Peer) : Prop :=
  Forall (fun k => JsObject.ordinary_key k = true) (map cn ps).

(** Peers of the examples. *)
Definition peer0 : Peer :=
  mkPeer "peer0" "grpc://one:7051" "grpc://one:7053" "admin-one".
Definition peer0_again : Peer :=
  mkPeer "peer0" "grpc://two:7051" "grpc://two:7053" "admin-two".
Definition peer1 : Peer :=
  mkPeer "peer1" "grpc://three:7051" "grpc://three:7053" "admin-three".
Definition peer_numbered (n u : string) : Peer :=
  mkPeer n u u "admin".

(** The calls of lines 36-62, when nothing fails. *)
Definition broadcast_trace {rt : Runtime} (a : InvokeArgs) (env : Env)
    (ups : list Peer) : list Call :=
  [CreateFabricClient ups (orderer a) (channelId a);
   SetUserContext (userId a);
   NewTransactionID;
   SendTransactionProposal (request_of a (env_transaction_id env))].

(** The environment answers the broadcast with [proposalResponses]. *)
Definition broadcast_answers (env : Env)
    (proposalResponses : option (list ProposalResponse)) : Prop :=
  env_createFabricClient env = Resolve tt
  /\ env_setUserContext env = Resolve tt
  /\ env_sendTransactionProposal env = Resolve proposalResponses.

(** The calls that start both legs, lines 109-125. *)
Definition commit_calls (peerForListening : Peer) : list Call :=
  [SendTransaction; NewEventHub;
   SetPeerAddr (broadcastUrl peerForListening);
   SetUserContext (adminUserId peerForListening)].


(** The first response is an endorsement with status 200. *)
Definition first_is_good (first : ProposalResponse) : bool :=
  match response first with
  | Some r => Z.eqb (status r) 200
  | None => false
  end.





(** Arguments and answers of the examples. *)
Definition example_args (ps : option (list Peer)) : InvokeArgs (rt := example_runtime) :=
  mkInvokeArgs (rt := example_runtime)
    (mkChaincode (rt := example_runtime) "fabcar" "createCar"
       ["CAR1"; "Porsche"; "Cayenne"; "Black"; "Ronny"])
    "mychannel" ps "grpc://orderer:7050" "user1" None.

(** A hub that reports its shutdown, in the words of fabric-client. *)
Definition hub_reports_shutdown : option string :=
  Some "Error: EventHub has been shutdown".

Definition example_env (first : ProposalResponse) : Env :=
  mkEnv (Resolve tt) (Resolve tt) "tx-1" (Resolve (Some [first])) (Resolve tt)
        hub_reports_shutdown.

Definition good_endorsement : ProposalResponse :=
  mkProposalResponse (Some (mkResponse 200 porsche_payload "OK")) None.

Definition order_success : Event :=
  EvSend (Resolve (Some (mkBroadcastResponse "SUCCESS"))).

(** The two verdicts the reconciler reads (lines 183 and 191). *)
Definition order_succeeded (s : option BroadcastResponse) : bool :=
  match s with
  | Some b => String.eqb (order_status b) "SUCCESS"
  | None => false
  end.

Definition commit_valid (r : ReturnStatus) : bool :=
  String.eqb (event_status r) "VALID".

Definition is_admin_event (ev : Event) : bool :=
  match ev with EvAdminContext _ => true | _ => false end.

(** The send promise after the events [evs]: the first settlement counts. *)
Fixpoint send_after (evs : list Event)
    (send : Promise (option BroadcastResponse))
  : Promise (option BroadcastResponse) :=
  match evs with
  | [] => send
  | EvSend r :: rest => send_after rest (settle send (promise_of r))
  | _ :: rest => send_after rest send
  end.

(** The listener while the admin identity switch is in flight. *)
Definition waiting (tr : list Call)
    (send : Promise (option BroadcastResponse)) : Listener :=
  mkListener true TimerNotStarted 0 false false 0 Pending send
    (match send with Rejected e => Rejected e | _ => Pending end) tr.

(** The listener after the admin identity switch failed with [e]. *)
Definition failed (tr : list Call)
    (send : Promise (option BroadcastResponse)) (first e : JsError) : Listener :=
  mkListener false TimerNotStarted 0 false false 0 (Rejected e) send
    (Rejected first) tr.

(** [needle] occurs in [hay]. *)
Fixpoint contains (needle hay : string) : bool :=
  match hay with
  | EmptyString => String.prefix needle hay
  | String _ rest => String.prefix needle hay || contains needle rest
  end.

(** The listener of the examples, armed and then hit by one hub error. *)
Definition armed_then_hub_error (shutdown : option string) : Listener :=
  run "tx-1" MAX_TIMEOUT shutdown
      [EvAdminContext (Resolve tt); EvHubError "Error: disconnected"]
      (commitStart peer0 []).

(** What the hub's report of its shutdown adds to the calls of the
    deadline callback while the listener promise is already rejected or
    [retries] is below the bound. *)
Definition shutdown_report_calls (shutdown : option string) : list Call :=
  match shutdown with
  | Some err => [TxPromiseReject (NewError (eventhub_message err))]
  | None => []
  end.

(** Events of the examples. *)
Definition admin_switched : Event := EvAdminContext (Resolve tt).

Definition admin_switch_fails : Event :=
  EvAdminContext (Reject (Rejection "no admin identity")).

Definition order_unreachable : Event :=
  EvSend (Reject (Rejection "orderer unreachable")).

(** ** Further notions: the rest of the workflow *)

Definition is_undefined (arg : option string) : bool :=
  match arg with None => true | Some _ => false end.

Definition is_resolved {A} (p : Promise A) : bool :=
  match p with Resolved _ => true | _ => false end.

(** The events through which the hub or the timer reach the listener. *)
Definition is_listener_event (ev : Event) : bool :=
  match ev with
  | EvCommit _ | EvHubError _ | EvTimer => true
  | _ => false
  end.

Definition is_valid_commit (ev : Event) : bool :=
  match ev with
  | EvCommit code => String.eqb code "VALID"
  | _ => false
  end.

Definition is_set_timeout (c : Call) : bool :=
  match c with SetTimeout _ => true | _ => false end.

Definition is_send_transaction (c : Call) : bool :=
  match c with SendTransaction => true | _ => false end.

(** The listener once armed: timer running, hub connected, callbacks
    registered, nothing received yet. *)
Definition listening (tr : list Call)
    (send : Promise (option BroadcastResponse)) : Listener :=
  mkListener false TimerArmed 0 true true 0 Pending send
    (match send with Rejected e => Rejected e | _ => Pending end) tr.

(** The listener after a VALID commit event. *)
Definition committed (tr : list Call)
    (send : Promise (option BroadcastResponse)) (r : ReturnStatus) : Listener :=
  mkListener false TimerCleared 0 false false 0 (Resolved r) send
    (match send with
     | Pending => Pending
     | Resolved s => Resolved (s, r)
     | Rejected e => Rejected e
     end) tr.

(** The calls of an armed listener, and of its two ordinary endings. *)
Definition arming_calls (txid : string) (ms : N) : list Call :=
  [SetTimeout ms; Connect; RegisterTxEvent txid].

Definition commit_cleanup_calls (txid : string) : list Call :=
  [ClearTimeout; UnregisterTxEvent txid; Disconnect;
   TxPromiseResolve (mkReturnStatus "VALID" txid)].

(** Identities in ascending order of their array index. *)
Fixpoint ascending (l : list string) : Prop :=
  match l with
  | [] => True
  | k :: rest =>
      Forall (fun k' =>
                match JsObject.array_index k, JsObject.array_index k' with
                | Some n, Some n' => (n <= n')%N
                | _, _ => False
                end) rest
      /\ ascending rest
  end.

(** ** lib/createFabricClient.js

    The client bootstrap used by the tests: a fresh client, a key-value
    store and a crypto key store on the same path.  The calls after the
    store has been obtained are synchronous; one that throws is caught by
    the final [catch]. *)

Module KeyStoreClient.

Inductive ClientCall :=
| NewFabricClient
| NewDefaultKeyValueStore (path : string)
| SetStateStore
| NewCryptoSuite
| NewCryptoKeyStore (path : string)
| SetCryptoKeyStore
| SetCryptoSuite.

(** What each call answers: the promise of the store, and for the
    synchronous calls a return or a throw. *)
Record ClientEnv := mkClientEnv {
  answer_newDefaultKeyValueStore : Result unit;
  answer_setStateStore : Result unit;
  answer_newCryptoSuite : Result unit;
  answer_newCryptoKeyStore : Result unit;
  answer_setCryptoKeyStore : Result unit;
  answer_setCryptoSuite : Result unit
}.

Definition Steps (A : Type) : Type :=
  list ClientCall -> list ClientCall * Result A.

Definition and_then {A B} (m : Steps A) (k : A -> Steps B) : Steps B :=
  fun tr =>
    match m tr with
    | (tr', Resolve a) => k a tr'
    | (tr', Reject e) => (tr', Reject e)
    end.

Definition perform {A} (c : ClientCall) (answer : Result A) : Steps A :=
  fun tr => ((tr ++ [c])%list, answer).

(** lines 4-33; the constructor of line 5 runs before the promise. *)
Definition createFabricClient (keyStorePath : string) (env : ClientEnv)
  : list ClientCall * Promise unit :=
  let chain :=
    and_then (perform (NewDefaultKeyValueStore keyStorePath)
                (answer_newDefaultKeyValueStore env)) (fun _ =>
    and_then (perform SetStateStore (answer_setStateStore env)) (fun _ =>
    and_then (perform NewCryptoSuite (answer_newCryptoSuite env)) (fun _ =>
    and_then (perform (NewCryptoKeyStore keyStorePath)
                (answer_newCryptoKeyStore env)) (fun _ =>
    and_then (perform SetCryptoKeyStore (answer_setCryptoKeyStore env)) (fun _ =>
    perform SetCryptoSuite (answer_setCryptoSuite env)))))) in
  match chain [NewFabricClient] with
  | (tr, Resolve _) => (tr, Resolved tt)
  | (tr, Reject e) => (tr, Rejected e)
  end.

(** All the calls of a bootstrap that goes through. *)
Definition full_bootstrap (keyStorePath : string) : list ClientCall :=
  [NewFabricClient; NewDefaultKeyValueStore keyStorePath; SetStateStore;
   NewCryptoSuite; NewCryptoKeyStore keyStorePath; SetCryptoKeyStore;
   SetCryptoSuite].

(** The answers in the order of the calls. *)
Definition answers (env : ClientEnv) : list (Result unit) :=
  [answer_newDefaultKeyValueStore env; answer_setStateStore env;
   answer_newCryptoSuite env; answer_newCryptoKeyStore env;
   answer_setCryptoKeyStore env; answer_setCryptoSuite env].

(** The first rejection among the answers, and how many answers it took. *)
Fixpoint first_failure (l : list (Result unit)) : option (nat * JsError) :=
  match l with
  | [] => None
  | Resolve _ :: rest =>
      match first_failure rest with
      | Some (n, e) => Some (S n, e)
      | None => None
      end
  | Reject e :: _ => Some (0, e)
  end.

End KeyStoreClient.

(** Environments of the examples in which one stage fails. *)
Definition env_client_fails : Env :=
  mkEnv (Reject (Rejection "no client")) (Resolve tt) "tx-1"
        (Resolve (Some [good_endorsement])) (Resolve tt) hub_reports_shutdown.

Definition env_user_fails : Env :=
  mkEnv (Resolve tt) (Reject (Rejection "unknown user")) "tx-1"
        (Resolve (Some [good_endorsement])) (Resolve tt) hub_reports_shutdown.

Definition env_proposal_fails : Env :=
  mkEnv (Resolve tt) (Resolve tt) "tx-1"
        (Reject (Rejection "peer unreachable")) (Resolve tt)
        hub_reports_shutdown.

Definition env_cert_fails : Env :=
  mkEnv (Resolve tt) (Resolve tt) "tx-1"
        (Resolve (Some [good_endorsement])) (Reject (Rejection "no certificate"))
        hub_reports_shutdown.

Definition env_no_responses : Env :=
  mkEnv (Resolve tt) (Resolve tt) "tx-1" (Resolve None) (Resolve tt)
        hub_reports_shutdown.

Definition env_empty_responses : Env :=
  mkEnv (Resolve tt) (Resolve tt) "tx-1" (Resolve (Some [])) (Resolve tt)
        hub_reports_shutdown.

(** The listener result and the joined result, when there is one, are
    those of a VALID event. *)
Definition results_valid (txid : string) (st : Listener) : Prop :=
  match txPromise st with
  | Resolved r => r = mkReturnStatus "VALID" txid
  | _ => True
  end
  /\ match allPromise st with
     | Resolved (_, r) => r = mkReturnStatus "VALID" txid
     | _ => True
     end.

(** The orderer answers, but refuses the transaction. *)
Definition order_refused : Event :=
  EvSend (Resolve (Some (mkBroadcastResponse "BAD_REQUEST"))).

(** The switch to the admin identity fails with an error that holds a
    reference to itself. *)
Definition admin_switch_fails_cyclic : Event :=
  EvAdminContext (Reject (Unserialisable "cyclic error")).

(** How the deadline rejects an armed listener that has received nothing:
    with the report of the hub if it makes one, else with the timeout. *)
Definition deadline_error (shutdown : option string) : JsError :=
  match shutdown with
  | Some err => NewError (eventhub_message err)
  | None => NewError timeout_message
  end.

Definition deadline_calls (shutdown : option string) : list Call :=
  (Disconnect :: shutdown_report_calls shutdown
     ++ [TxPromiseReject (NewError timeout_message)])%list.

(** * Properties *)

(** ** Facts about lists and object properties *)

Lemma mem_In k l : mem k l = true <-> In k l.
Proof.
  unfold mem. rewrite existsb_exists. split.
  - intros [x [Hin Heq]]. apply String.eqb_eq in Heq. now subst.
  - intros Hin. exists k. split; [assumption | apply String.eqb_refl].
Qed.

Lemma mem_app k l1 l2 : mem k (l1 ++ l2)%list = mem k l1 || mem k l2.
Proof. unfold mem. apply existsb_app. Qed.

Lemma filter_absorb {A} (f g : A -> bool) (l : list A) :
  (forall x, f x = true -> g x = true) ->
  filter f (filter g l) = filter f l.
Proof.
  intros Himp. induction l as [|x l IH]; simpl; [reflexivity|].
  destruct (g x) eqn:Hg; simpl.
  - now rewrite IH.
  - destruct (f x) eqn:Hf; [|assumption].
    apply Himp in Hf. congruence.
Qed.

Lemma filter_both {A} (f g : A -> bool) (l : list A) :
  filter f (filter g l) = filter (fun x => f x && g x) l.
Proof.
  induction l as [|x l IH]; simpl; [reflexivity|].
  destruct (g x); simpl; destruct (f x); simpl; now rewrite ?IH.
Qed.

Lemma filter_all {A} (f : A -> bool) (l : list A) :
  Forall (fun x => f x = true) l -> filter f l = l.
Proof.
  induction 1 as [|x l Hx _ IH]; simpl; [reflexivity|].
  now rewrite Hx, IH.
Qed.

Lemma filter_none {A} (f : A -> bool) (l : list A) :
  Forall (fun x => f x = false) l -> filter f l = [].
Proof.
  induction 1 as [|x l Hx _ IH]; simpl; [reflexivity|].
  now rewrite Hx.
Qed.

Lemma flat_map_agree {A B} (f g : A -> list B) (l : list A) :
  (forall a, In a l -> f a = g a) -> flat_map f l = flat_map g l.
Proof.
  induction l as [|a l IH]; intros Hfg; simpl; [reflexivity|].
  rewrite (Hfg a (or_introl eq_refl)), IH; [reflexivity|].
  intros b Hb. apply Hfg. now right.
Qed.

Lemma first_occurrences_In k l :
  In k (first_occurrences l) -> In k l.
Proof.
  revert k. induction l as [|x l IH]; simpl; intros k; [tauto|].
  intros [Heq | Hin]; [now left|].
  apply filter_In in Hin. right. apply IH. tauto.
Qed.

Module JsObjectFacts.

Import JsObject.

Section Facts.

Context {V : Type}.
Implicit Types (o : t V) (k : string) (v : V).

Lemma put_keys_present k v o :
  In k (map fst o) -> map fst (put k v o) = map fst o.
Proof.
  induction o as [|[k' v'] o IH]; simpl; [tauto|].
  intros Hin. destruct (String.eqb_spec k k') as [->|Hne]; simpl.
  - reflexivity.
  - f_equal. apply IH. destruct Hin; [congruence | assumption].
Qed.

Lemma put_keys_absent k v o :
  ~ In k (map fst o) -> map fst (put k v o) = (map fst o ++ [k])%list.
Proof.
  induction o as [|[k' v'] o IH]; simpl; [reflexivity|].
  intros Hnin. destruct (String.eqb_spec k k') as [->|Hne]; simpl.
  - exfalso. apply Hnin. now left.
  - f_equal. apply IH. tauto.
Qed.

Lemma put_length k v o : List.length (put k v o) <= S (List.length o).
Proof.
  induction o as [|[k' v'] o IH]; simpl; [lia|].
  destruct (String.eqb k k'); simpl; lia.
Qed.

Lemma put_In k v o e :
  In e (put k v o) -> e = (k, v) \/ In e o.
Proof.
  induction o as [|[k' v'] o IH]; simpl.
  - intros [<-|[]]. now left.
  - destruct (String.eqb k k'); simpl.
    + intros [<-|Hin]; [now left | right; now right].
    + intros [<-|Hin]; [right; now left|].
      destruct (IH Hin); [now left | right; now right].
Qed.

Lemma put_NoDup k v o :
  NoDup (map fst o) -> NoDup (map fst (put k v o)).
Proof.
  intros Hnd. destruct (in_dec string_dec k (map fst o)) as [Hin|Hnin].
  - now rewrite put_keys_present.
  - rewrite put_keys_absent by assumption.
    apply NoDup_app; [assumption | repeat constructor; simpl; tauto |].
    intros x Hx [<-|[]]. contradiction.
Qed.

Lemma get_put_same k v o : get k (put k v o) = Some v.
Proof.
  induction o as [|[k' v'] o IH]; simpl.
  - now rewrite String.eqb_refl.
  - destruct (String.eqb k k') eqn:E; simpl; rewrite ?String.eqb_refl, ?E;
      [reflexivity | assumption].
Qed.

Lemma get_put_other k k' v o :
  k <> k' -> get k' (put k v o) = get k' o.
Proof.
  intros Hne. induction o as [|[k0 v0] o IH]; simpl.
  - destruct (String.eqb_spec k' k); congruence.
  - destruct (String.eqb_spec k k0) as [->|Hne0]; simpl.
    + destruct (String.eqb_spec k' k0); congruence.
    + now rewrite IH.
Qed.

Lemma get_In k v o :
  NoDup (map fst o) -> In (k, v) o -> get k o = Some v.
Proof.
  induction o as [|[k' v'] o IH]; simpl; [tauto|].
  intros Hnd Hin. inversion Hnd as [|? ? Hnotin Hnd']; subst.
  destruct Hin as [Heq | Hin].
  - inversion Heq; subst. now rewrite String.eqb_refl.
  - destruct (String.eqb_spec k k') as [->|Hne]; [|now apply IH].
    exfalso. apply Hnotin. apply (in_map fst) in Hin. exact Hin.
Qed.

Lemma values_by_key o :
  NoDup (map fst o) ->
  map snd o = flat_map (fun k => option_list (get k o)) (map fst o).
Proof.
  induction o as [|[k v] o IH]; simpl; [reflexivity|].
  intros Hnd. inversion Hnd as [|? ? Hnotin Hnd']; subst.
  rewrite String.eqb_refl. simpl. f_equal.
  rewrite IH by assumption. apply flat_map_agree.
  intros k' Hin. destruct (String.eqb_spec k' k) as [->|Hne];
    [contradiction | reflexivity].
Qed.

(** The enumeration is a rearrangement of the own properties. *)
Lemma insert_by_index_perm e (l : list (string * V)) :
  Permutation (insert_by_index e l) (e :: l).
Proof.
  induction l as [|e' l IH]; simpl; [reflexivity|].
  destruct (index_of_entry e <=? index_of_entry e')%N; [reflexivity|].
  rewrite IH. apply perm_swap.
Qed.

Lemma sort_by_index_perm (l : list (string * V)) :
  Permutation (sort_by_index l) l.
Proof.
  induction l as [|e l IH]; simpl; [reflexivity|].
  rewrite insert_by_index_perm. now constructor.
Qed.

Lemma filter_split_perm {A} (f : A -> bool) (l : list A) :
  Permutation (filter f l ++ filter (fun x => negb (f x)) l) l.
Proof.
  induction l as [|x l IH]; simpl; [reflexivity|].
  destruct (f x); simpl.
  - now constructor.
  - rewrite <- Permutation_middle. now constructor.
Qed.

Lemma entries_perm o : Permutation (entries o) o.
Proof.
  unfold entries. rewrite sort_by_index_perm.
  apply (filter_split_perm (fun e => is_index (fst e))).
Qed.

Lemma entries_named o :
  Forall (fun k => is_index k = false) (map fst o) -> entries o = o.
Proof.
  intros Hall. unfold entries.
  rewrite filter_none, filter_all; [reflexivity | |].
  - apply Forall_forall. intros e He. rewrite Forall_forall in Hall.
    rewrite (Hall (fst e)); [reflexivity | now apply in_map].
  - apply Forall_forall. intros e He. rewrite Forall_forall in Hall.
    apply Hall. now apply in_map.
Qed.

End Facts.

End JsObjectFacts.

(** ** The peer registry *)

Section Registry.

Import JsObject JsObjectFacts.
Implicit Types (o : JsObject.t Peer) (ps : list Peer) (p : Peer).

Lemma peersMap_assign_all ps : peersMap (Some ps) = assign_all ps empty.
Proof. reflexivity. Qed.

Lemma set_keyed p o : keyed o -> keyed (set (cn p) p o).
Proof.
  unfold keyed, set. intros Hk.
  destruct (String.eqb_spec (cn p) proto_key) as [Heq|Hne]; [assumption|].
  apply Forall_forall. intros e He.
  destruct (put_In _ _ _ _ He) as [->|Hin]; simpl; [tauto|].
  rewrite Forall_forall in Hk. now apply Hk.
Qed.

Lemma set_NoDup p o : NoDup (map fst o) -> NoDup (map fst (set (cn p) p o)).
Proof.
  unfold set. destruct (String.eqb (cn p) proto_key); [tauto|].
  apply put_NoDup.
Qed.

Lemma set_length p o : List.length (set (cn p) p o) <= S (List.length o).
Proof.
  unfold set. destruct (String.eqb (cn p) proto_key); [lia|].
  apply put_length.
Qed.

Lemma assign_all_keyed ps : forall o, keyed o -> keyed (assign_all ps o).
Proof.
  induction ps as [|p ps IH]; simpl; intros o Hk; [assumption|].
  apply IH. now apply set_keyed.
Qed.

Lemma assign_all_NoDup ps :
  forall o, NoDup (map fst o) -> NoDup (map fst (assign_all ps o)).
Proof.
  induction ps as [|p ps IH]; simpl; intros o Hnd; [assumption|].
  apply IH. now apply set_NoDup.
Qed.

Lemma assign_all_length ps :
  forall o, List.length (assign_all ps o) <= List.length o + List.length ps.
Proof.
  induction ps as [|p ps IH]; simpl; intros o; [lia|].
  specialize (IH (set (cn p) p o)). pose proof (set_length p o). lia.
Qed.

(** Without [__proto__], the keys are created in first-occurrence order. *)
Lemma assign_all_keys ps :
  forall o,
    Forall (fun k => k <> proto_key) (map cn ps) ->
    map fst (assign_all ps o) =
    (map fst o ++
       filter (fun k => negb (mem k (map fst o)))
              (first_occurrences (map cn ps)))%list.
Proof.
  induction ps as [|p ps IH]; simpl; intros o Hall.
  - now rewrite app_nil_r.
  - inversion Hall as [|? ? Hp Hrest]; subst.
    rewrite IH by assumption. unfold set.
    destruct (String.eqb_spec (cn p) proto_key) as [Heq|_]; [contradiction|].
    destruct (mem (cn p) (map fst o)) eqn:Hmem; simpl.
    + apply mem_In in Hmem. rewrite put_keys_present by assumption.
      f_equal. symmetry. apply filter_absorb.
      intros x Hx. destruct (String.eqb_spec x (cn p)) as [->|]; [|reflexivity].
      apply mem_In in Hmem. rewrite Hmem in Hx. discriminate.
    + assert (Hnin : ~ In (cn p) (map fst o)).
      { intros Hin. apply mem_In in Hin. congruence. }
      rewrite put_keys_absent by assumption.
      rewrite <- app_assoc. simpl. do 2 f_equal.
      rewrite filter_both. apply filter_ext. intros x.
      rewrite mem_app. simpl. rewrite orb_false_r, negb_orb. reflexivity.
Qed.

Lemma find_snoc {A} (f : A -> bool) (l : list A) (x : A) :
  find f (l ++ [x]) =
  match find f l with Some y => Some y | None => if f x then Some x else None end.
Proof.
  induction l as [|y l IH]; simpl; [reflexivity|].
  destruct (f y); [reflexivity | assumption].
Qed.

(** The value left under a key is the last descriptor assigned to it. *)
Lemma assign_all_get k ps :
  k <> proto_key ->
  forall o,
    get k (assign_all ps o) =
    match last_with_cn k ps with Some p => Some p | None => get k o end.
Proof.
  intros Hk. unfold last_with_cn.
  induction ps as [|p ps IH]; simpl; intros o; [reflexivity|].
  rewrite IH, find_snoc.
  destruct (find (fun q => String.eqb (cn q) k) (rev ps)); [reflexivity|].
  unfold set.
  destruct (String.eqb_spec (cn p) k) as [Heq|Hne].
  - subst k. destruct (String.eqb_spec (cn p) proto_key); [contradiction|].
    apply get_put_same.
  - destruct (String.eqb (cn p) proto_key); [reflexivity|].
    now apply get_put_other.
Qed.

Lemma peersMap_keyed ps : keyed (peersMap (Some ps)).
Proof. apply assign_all_keyed. constructor. Qed.

Lemma peersMap_NoDup ps : NoDup (map fst (peersMap (Some ps))).
Proof. apply assign_all_NoDup. constructor. Qed.

Lemma uniquePeers_cn o : keyed o -> map cn (values o) = keys o.
Proof.
  intros Hk. unfold values, keys. rewrite map_map.
  apply map_ext_in. intros e He.
  apply (Permutation_in _ (entries_perm o)) in He.
  unfold keyed in Hk. rewrite Forall_forall in Hk. now apply Hk.
Qed.

Lemma ordinary_not_index k : ordinary_key k = true -> is_index k = false.
Proof.
  unfold ordinary_key. intros H. apply andb_prop in H as [H _].
  now apply negb_true_iff.
Qed.

Lemma ordinary_not_proto k : ordinary_key k = true -> k <> proto_key.
Proof.
  unfold ordinary_key. intros H. apply andb_prop in H as [_ H].
  apply negb_true_iff in H. now apply String.eqb_neq.
Qed.

Lemma ordinary_keys_order ps :
  Forall (fun k => ordinary_key k = true) (map cn ps) ->
  map fst (peersMap (Some ps)) = first_occurrences (map cn ps).
Proof.
  intros Hall. rewrite peersMap_assign_all, assign_all_keys; simpl.
  - apply filter_all. apply Forall_forall. reflexivity.
  - eapply Forall_impl; [|exact Hall]. apply ordinary_not_proto.
Qed.

Lemma ordinary_entries ps :
  Forall (fun k => ordinary_key k = true) (map cn ps) ->
  entries (peersMap (Some ps)) = peersMap (Some ps).
Proof.
  intros Hall. apply entries_named.
  rewrite ordinary_keys_order by assumption.
  apply Forall_forall. intros k Hk.
  apply first_occurrences_In in Hk. rewrite Forall_forall in Hall.
  apply ordinary_not_index. now apply Hall.
Qed.

End Registry.

(** C8, as worded, at a list whose identities are array indices: the two
    peers come out in numeric order, not in the order they were given. *)
Lemma uniquePeers_numeric_identities_reordered :
  ~ deduplicated_first_seen
      [peer_numbered "1" "a"; peer_numbered "0" "b"]
      (uniquePeers (Some [peer_numbered "1" "a"; peer_numbered "0" "b"])).
Proof.
  intros [_ [_ Horder]]. vm_compute in Horder. discriminate.
Qed.

(** C8 (amended): the deduplicated list never holds an identity twice and
    is never longer than the input; when no identity is an array index or
    [__proto__], the identities come in the order of their first
    occurrence. *)
Theorem uniquePeers_deduplicates (ps : list Peer) :
  NoDup (map cn (uniquePeers (Some ps)))
  /\ List.length (uniquePeers (Some ps)) <= List.length ps
  /\ (all_ordinary ps ->
      map cn (uniquePeers (Some ps)) = first_occurrences (map cn ps)).
Proof.
  unfold uniquePeers. split; [|split].
  - rewrite uniquePeers_cn by apply peersMap_keyed.
    unfold JsObject.keys.
    eapply Permutation_NoDup;
      [apply Permutation_map; symmetry; apply JsObjectFacts.entries_perm|].
    apply peersMap_NoDup.
  - unfold JsObject.values. rewrite length_map.
    rewrite (Permutation_length (JsObjectFacts.entries_perm _)).
    rewrite peersMap_assign_all.
    pose proof (assign_all_length ps JsObject.empty) as H. simpl in H. exact H.
  - intros Hall. rewrite uniquePeers_cn by apply peersMap_keyed.
    unfold JsObject.keys. rewrite ordinary_entries by assumption.
    now apply ordinary_keys_order.
Qed.

(** Scenario A: two descriptors of [peer0] collapse to one peer. *)
Lemma uniquePeers_deduplicates_scenario_A :
  all_ordinary [peer0; peer0_again; peer1]
  /\ map cn (uniquePeers (Some [peer0; peer0_again; peer1])) = ["peer0"; "peer1"].
Proof.
  assert (H : all_ordinary [peer0; peer0_again; peer1])
    by (repeat constructor).
  split; [exact H|].
  exact (proj2 (proj2 (uniquePeers_deduplicates [peer0; peer0_again; peer1])) H).
Defined.

(** C9, as worded, at a list that also names a peer by an array index: the
    retained [b] descriptor is the last one, but it does not sit at the
    place of the first occurrence, and the listening peer is another one. *)
Lemma uniquePeers_last_descriptor_displaced :
  uniquePeers (Some [peer_numbered "b" "first"; peer_numbered "0" "zero";
                     peer_numbered "b" "last"])
  <> last_descriptor_at_first_place
       [peer_numbered "b" "first"; peer_numbered "0" "zero";
        peer_numbered "b" "last"].
Proof. vm_compute. discriminate. Qed.

(** C9 (amended): every retained descriptor, the listening peer
    [uniquePeers[0]] included, is the last one the input gives for its
    identity; when no identity is an array index or [__proto__], it sits at
    the place of the first occurrence of that identity. *)
Theorem uniquePeers_keeps_last_descriptor (ps : list Peer) :
  (forall p, In p (uniquePeers (Some ps)) -> last_with_cn (cn p) ps = Some p)
  /\ (forall p rest, uniquePeers (Some ps) = p :: rest ->
                    last_with_cn (cn p) ps = Some p)
  /\ (all_ordinary ps ->
      uniquePeers (Some ps) = last_descriptor_at_first_place ps).
Proof.
  assert (Hlast : forall p, In p (uniquePeers (Some ps)) ->
                            last_with_cn (cn p) ps = Some p).
  { intros p Hin. unfold uniquePeers, JsObject.values in Hin.
    apply in_map_iff in Hin as [[k v] [Hv He]]. simpl in Hv. subst v.
    apply (Permutation_in _ (JsObjectFacts.entries_perm _)) in He.
    pose proof (peersMap_keyed ps) as Hk. unfold keyed in Hk.
    rewrite Forall_forall in Hk. destruct (Hk _ He) as [Hcn Hproto].
    simpl in Hcn, Hproto. subst k.
    apply (JsObjectFacts.get_In _ _ _ (peersMap_NoDup ps)) in He.
    rewrite peersMap_assign_all, (assign_all_get _ ps Hproto) in He.
    simpl in He. destruct (last_with_cn (cn p) ps); [assumption | discriminate]. }
  split; [exact Hlast|]. split.
  - intros p rest Heq. apply Hlast. rewrite Heq. now left.
  - intros Hall. unfold uniquePeers, JsObject.values, last_descriptor_at_first_place.
    rewrite ordinary_entries by assumption.
    rewrite (JsObjectFacts.values_by_key _ (peersMap_NoDup ps)).
    rewrite ordinary_keys_order by assumption.
    apply flat_map_agree. intros k Hk. f_equal.
    apply first_occurrences_In in Hk.
    assert (Hproto : k <> JsObject.proto_key).
    { apply ordinary_not_proto. unfold all_ordinary in Hall.
      rewrite Forall_forall in Hall. now apply Hall. }
    rewrite peersMap_assign_all, (assign_all_get _ ps Hproto). simpl.
    destruct (last_with_cn k ps); reflexivity.
Qed.

(** Two descriptors of [peer0]: the second one is kept, in first place,
    and it is the listening peer. *)
Lemma uniquePeers_keeps_last_descriptor_example :
  last_with_cn "peer0" [peer0; peer1; peer0_again] = Some peer0_again
  /\ uniquePeers (Some [peer0; peer1; peer0_again]) = [peer0_again; peer1].
Proof.
  pose proof (uniquePeers_keeps_last_descriptor [peer0; peer1; peer0_again])
    as [_ [Hfirst Hplace]].
  split.
  - apply (Hfirst peer0_again [peer1]). reflexivity.
  - apply Hplace. repeat constructor.
Defined.

(** ** The workflow up to the commit stage *)

Section Stages.

Context {rt : Runtime}.
Implicit Types (a : InvokeArgs) (env : Env) (evs : list Event).

Lemma broadcast_resolves a env ups prs :
  broadcast_answers env prs ->
  broadcast a env ups [] = (broadcast_trace a env ups, Resolve prs).
Proof.
  intros (Hc & Hu & Hp). unfold broadcast, bind, call.
  rewrite Hc, Hu, Hp. reflexivity.
Qed.

Lemma invoke_commit a env evs p rest tr ev :
  uniquePeers (peers a) = p :: rest ->
  endorse a env (p :: rest) p [] = (tr, Resolve ev) ->
  invoke a env evs =
  (trace (run (env_transaction_id env) (timeout_of a)
            (env_hub_shutdown env) evs (commitStart p tr)),
   outcome (transactionProposalResponse ev)
     (allPromise (run (env_transaction_id env) (timeout_of a)
            (env_hub_shutdown env) evs
                      (commitStart p tr)))).
Proof.
  intros Hup Hend. unfold invoke. rewrite Hup, Hend. reflexivity.
Qed.

Lemma invoke_stops a env evs p rest tr e :
  uniquePeers (peers a) = p :: rest ->
  endorse a env (p :: rest) p [] = (tr, Reject e) ->
  invoke a env evs = (tr, final_catch e).
Proof.
  intros Hup Hend. unfold invoke. rewrite Hup, Hend. reflexivity.
Qed.

Lemma invoke_stops_serialisable a env evs p rest tr e :
  uniquePeers (peers a) = p :: rest ->
  stringifies e = true ->
  endorse a env (p :: rest) p [] = (tr, Reject e) ->
  invoke a env evs = (tr, Rejected e).
Proof.
  intros Hup Hs Hend. rewrite (invoke_stops a env evs p rest tr e Hup Hend).
  unfold final_catch. now rewrite Hs.
Qed.

End Stages.

(** C7: with an absent or empty peer list, or one that deduplicates to
    nothing, [invoke] rejects with the no-peers error and has called no
    collaborator at all. *)
Theorem invoke_without_peers {rt : Runtime} (a : InvokeArgs) (env : Env)
    (evs : list Event) :
  peers a = None \/ peers a = Some [] \/ uniquePeers (peers a) = [] ->
  invoke a env evs = ([], Rejected (NewError no_peers_message)).
Proof.
  intros H.
  assert (Hup : uniquePeers (peers a) = []).
  { destruct H as [-> | [-> | H]]; [reflexivity | reflexivity | exact H]. }
  unfold invoke. now rewrite Hup.
Qed.

(** No peer list given: rejected before anything is called. *)
Lemma invoke_without_peers_example :
  invoke (example_args None) (example_env good_endorsement)
         [order_success; EvAdminContext (Resolve tt); EvCommit "VALID"]
  = ([], Rejected (NewError "No endorser peers provided.")).
Proof.
  apply (invoke_without_peers (rt := example_runtime)).
  left. reflexivity.
Defined.

(** ** The listener: calls are only ever added *)

Section Traces.

Variable transactionIdString : string.
Variable maxTimeout : N.
Variable shutdown : option string.

Lemma txPromiseReject_trace e st :
  trace (txPromiseReject e st) = (trace st ++ [TxPromiseReject e])%list.
Proof. reflexivity. Qed.

Lemma onError_trace_grows err st :
  exists more, trace (onError err st) = (trace st ++ more)%list.
Proof.
  unfold onError. destruct (MAX_RETRIES_EVENT_HUB <=? retries st)%nat; simpl;
    eexists; reflexivity.
Qed.

Lemma onTimeout_trace_grows st :
  exists more, trace (onTimeout shutdown st) = (trace st ++ more)%list.
Proof.
  cbv beta zeta delta [onTimeout]. rewrite txPromiseReject_trace.
  destruct (registered (with_connected false (emit Disconnect st)));
    [destruct shutdown as [err|]|].
  - destruct (onError_trace_grows err
                (with_connected false (emit Disconnect st))) as [more H].
    rewrite H. simpl. rewrite <- !app_assoc. eexists; reflexivity.
  - simpl. rewrite <- !app_assoc. eexists; reflexivity.
  - simpl. rewrite <- !app_assoc. eexists; reflexivity.
Qed.

Lemma step_trace_grows st ev :
  exists more,
    trace (step transactionIdString maxTimeout shutdown st ev) = (trace st ++ more)%list.
Proof.
  destruct ev as [r | r | code | err | | ]; unfold step.
  - destruct (sendPromise st); exists []; now rewrite app_nil_r.
  - destruct (admin_pending st); [|exists []; now rewrite app_nil_r].
    destruct r; simpl; rewrite <- ?app_assoc; eexists; reflexivity.
  - destruct (registered st); [|exists []; now rewrite app_nil_r].
    unfold onEvent, clearTimeout. simpl.
    destruct (timer st), (negb (String.eqb code "VALID")); simpl;
      rewrite <- ?app_assoc; eexists; reflexivity.
  - destruct (registered st); [|exists []; now rewrite app_nil_r].
    unfold onError. destruct (MAX_RETRIES_EVENT_HUB <=? retries st)%nat; simpl;
      eexists; reflexivity.
  - destruct (timer st); try (exists []; now rewrite app_nil_r).
    destruct (onTimeout_trace_grows (with_timer TimerFired st)) as [more H].
    exists more. exact H.
  - destruct (rearm st); [exists []; now rewrite app_nil_r|].
    simpl. rewrite <- ?app_assoc. eexists; reflexivity.
Qed.

Lemma run_trace_grows evs :
  forall st, exists more,
    trace (run transactionIdString maxTimeout shutdown evs st) = (trace st ++ more)%list.
Proof.
  induction evs as [|ev evs IH]; intros st; simpl.
  - exists []. now rewrite app_nil_r.
  - destruct (IH (step transactionIdString maxTimeout shutdown st ev)) as [m1 H1].
    destruct (step_trace_grows st ev) as [m2 H2].
    exists (m2 ++ m1)%list. unfold run in *. simpl. rewrite H1, H2.
    now rewrite app_assoc.
Qed.

End Traces.

(** ** Endorsement evaluation and reconciliation *)




(** The reconciliation of two results, case by case. *)
Lemma reconcile_table {rt : Runtime} (v : ProposalValue)
    (s : option BroadcastResponse) (r : ReturnStatus) :
  reconcile v s (Some r)
  = match order_succeeded s, commit_valid r with
    | true, true => Resolved v
    | false, true => Rejected (NewError order_failure_message)
    | true, false =>
        Rejected (NewError (commit_failure_message (event_status r)))
    | false, false =>
        Rejected (NewError (order_failure_message ++ newline
                              ++ commit_failure_message (event_status r)))
    end.
Proof.
  unfold reconcile, order_succeeded, commit_valid.
  destruct s as [b|]; simpl;
    [destruct (String.eqb (order_status b) "SUCCESS")|];
    destruct (String.eqb (event_status r) "VALID"); reflexivity.
Qed.

(** Scenarios B and E: a good endorsement, an accepted submission and a
    VALID commit event resolve with the parsed payload. *)
Lemma invoke_scenario_E :
  snd (invoke (example_args (Some [peer0])) (example_env good_endorsement)
         [order_success; EvAdminContext (Resolve tt); EvCommit "VALID"])
  = Resolved (PParsed (rt := example_runtime) (JObject [("make", "Porsche")])).
Proof. reflexivity. Qed.

(** The listener result that reaches the reconciler is always the
    [returnStatus] object of a VALID event. *)
Lemma txPromise_resolves_valid transactionIdString code st :
  txPromise st = Pending ->
  forall r,
    txPromise (onEvent transactionIdString code st) = Resolved r ->
    r = mkReturnStatus "VALID" transactionIdString.
Proof.
  intros Hp r. unfold onEvent, clearTimeout.
  destruct (String.eqb_spec code "VALID") as [->|Hne]; simpl;
    destruct (timer st); simpl; rewrite Hp; simpl; congruence.
Qed.

(** ** The listener leg *)

(** Runs one callback on a state given field by field. *)
Ltac run_callbacks :=
  cbv beta iota zeta delta
    [step onAdminContext onEvent onError onTimeout startListening clearTimeout
     txPromiseReject txPromiseResolve settle_tx settle_send
     with_registered with_connected with_retries with_timer
     with_admin_pending with_rearm emit
     admin_pending timer retries registered connected rearm
     txPromise sendPromise allPromise trace
     waiting listening committed failed
     arming_calls commit_cleanup_calls deadline_calls
     shutdown_report_calls].


Section ListenerLeg.

Variable transactionIdString : string.
Variable maxTimeout : N.
Variable shutdown : option string.

Lemma run_app l1 l2 st :
  run transactionIdString maxTimeout shutdown (l1 ++ l2) st =
  run transactionIdString maxTimeout shutdown l2
      (run transactionIdString maxTimeout shutdown l1 st).
Proof. unfold run. apply fold_left_app. Qed.

Lemma run_cons ev l st :
  run transactionIdString maxTimeout shutdown (ev :: l) st =
  run transactionIdString maxTimeout shutdown l
      (step transactionIdString maxTimeout shutdown st ev).
Proof. reflexivity. Qed.

Lemma commitStart_waiting p tr :
  commitStart p tr = waiting (tr ++ commit_calls p)%list Pending.
Proof. reflexivity. Qed.

Lemma step_waiting tr send ev :
  is_admin_event ev = false ->
  step transactionIdString maxTimeout shutdown (waiting tr send) ev =
  waiting tr (send_after [ev] send).
Proof.
  destruct ev as [r | r | code | err | | ]; simpl; intros Hev;
    try discriminate; try reflexivity.
  all: destruct send; try reflexivity; destruct r; reflexivity.
Qed.

Lemma send_after_cons ev l send :
  send_after (ev :: l) send = send_after l (send_after [ev] send).
Proof. destruct ev; reflexivity. Qed.

Lemma run_waiting pre :
  forall tr send,
    forallb (fun ev => negb (is_admin_event ev)) pre = true ->
    run transactionIdString maxTimeout shutdown pre (waiting tr send) =
    waiting tr (send_after pre send).
Proof.
  induction pre as [|ev pre IH]; intros tr send Hpre; [reflexivity|].
  simpl in Hpre. apply andb_prop in Hpre as [Hev Hpre].
  apply negb_true_iff in Hev.
  rewrite run_cons, (step_waiting _ _ _ Hev), IH by assumption.
  now rewrite <- send_after_cons.
Qed.

Lemma step_admin_rejected tr send e :
  step transactionIdString maxTimeout shutdown (waiting tr send)
       (EvAdminContext (Reject e)) =
  failed (tr ++ [TxPromiseReject e])%list send
         (match send with Rejected e' => e' | _ => e end) e.
Proof. destruct send; reflexivity. Qed.

Lemma step_failed tr send first e ev :
  step transactionIdString maxTimeout shutdown (failed tr send first e) ev =
  failed tr (send_after [ev] send) first e.
Proof.
  destruct ev as [r | r | code | err | | ]; try reflexivity.
  all: destruct send; try reflexivity; destruct r; reflexivity.
Qed.

Lemma run_failed post :
  forall tr send first e,
    run transactionIdString maxTimeout shutdown post (failed tr send first e) =
    failed tr (send_after post send) first e.
Proof.
  induction post as [|ev post IH]; intros tr send first e; [reflexivity|].
  rewrite run_cons, step_failed, IH. now rewrite <- send_after_cons.
Qed.

(** The whole run when the admin identity switch is the first thing of
    the listener leg to settle, and it fails. *)
Lemma run_admin_rejected p tr pre e post :
  forallb (fun ev => negb (is_admin_event ev)) pre = true ->
  run transactionIdString maxTimeout shutdown
      (pre ++ EvAdminContext (Reject e) :: post) (commitStart p tr) =
  failed (tr ++ commit_calls p ++ [TxPromiseReject e])%list
         (send_after post (send_after pre Pending))
         (match send_after pre Pending with Rejected e' => e' | _ => e end) e.
Proof.
  intros Hpre.
  rewrite run_app, run_cons, commitStart_waiting, (run_waiting _ _ _ Hpre).
  rewrite step_admin_rejected, run_failed. now rewrite <- app_assoc.
Qed.

(** The two callbacks of the registration, as equations on the state. *)
Lemma onEvent_settles code st :
  txPromise (onEvent transactionIdString code st) =
  settle (txPromise st)
         (if String.eqb code "VALID"
          then Resolved (mkReturnStatus code transactionIdString)
          else Rejected (NewError object_to_string)).
Proof.
  unfold onEvent, clearTimeout. simpl.
  destruct (timer st), (String.eqb code "VALID"); reflexivity.
Qed.

Lemma onEvent_cleans_up code st :
  timer (onEvent transactionIdString code st) <> TimerArmed
  /\ connected (onEvent transactionIdString code st) = false
  /\ registered (onEvent transactionIdString code st) = false.
Proof.
  unfold onEvent, clearTimeout. simpl.
  destruct (timer st) eqn:Ht, (String.eqb code "VALID"); simpl.
  all: split; [rewrite ?Ht; discriminate | split; reflexivity].
Qed.

Lemma onError_rearms err st :
  rearm (onError err st) =
  (if (MAX_RETRIES_EVENT_HUB <=? retries st)%nat
   then S (rearm st) else rearm st)
  /\ txPromise (onError err st) =
     (if (MAX_RETRIES_EVENT_HUB <=? retries st)%nat
      then txPromise st
      else settle (txPromise st) (Rejected (NewError (eventhub_message err))))
  /\ retries (onError err st) = retries st + 1
  /\ timer (onError err st) = timer st
  /\ connected (onError err st) = connected st.
Proof.
  unfold onError.
  destruct (MAX_RETRIES_EVENT_HUB <=? retries st)%nat; simpl; repeat split.
Qed.

End ListenerLeg.

(** What every event keeps: the deadline callback leaves the hub
    disconnected, and a listener result is always that of a VALID event. *)
Section ListenerResults.

Variable transactionIdString : string.
Variable maxTimeout : N.
Variable shutdown : option string.

Lemma onTimeout_disconnects st : connected (onTimeout shutdown st) = false.
Proof.
  destruct st as [ap tm rt rg cd rm tx sd al tr]. run_callbacks.
  destruct rg; [destruct shutdown as [err|]|]; try reflexivity.
  destruct (MAX_RETRIES_EVENT_HUB <=? rt)%nat; reflexivity.
Qed.

Lemma step_results_valid st ev :
  results_valid transactionIdString st ->
  results_valid transactionIdString
                (step transactionIdString maxTimeout shutdown st ev).
Proof.
  destruct st as [ap tm rt rg cd rm tx sd al tr]. unfold results_valid.
  destruct ev as [r | r | code | err | | ]; run_callbacks; intros [Htx Hall].
  - destruct sd; try (split; assumption).
    destruct r, tx, al; simpl in *; split; auto.
  - destruct ap; [|split; assumption].
    destruct r, tx, sd, al; simpl in *; split; auto.
  - destruct rg; [|split; assumption].
    destruct (String.eqb_spec code "VALID") as [->|Hne];
      destruct tm, tx, sd, al; simpl in *; split; auto.
  - destruct rg; [|split; assumption].
    destruct (MAX_RETRIES_EVENT_HUB <=? rt)%nat, tx, sd, al; simpl in *;
      split; auto.
  - destruct tm; try (split; assumption).
    destruct rg; [destruct shutdown as [err|]|];
      try destruct (MAX_RETRIES_EVENT_HUB <=? rt)%nat;
      destruct tx, sd, al; simpl in *; split; auto.
  - destruct rm; split; assumption.
Qed.

Lemma run_results_valid evs :
  forall st,
    results_valid transactionIdString st ->
    results_valid transactionIdString
                  (run transactionIdString maxTimeout shutdown evs st).
Proof.
  induction evs as [|ev evs IH]; intros st Hst; [assumption|].
  rewrite run_cons. apply IH. now apply step_results_valid.
Qed.

End ListenerResults.

(** C10, as worded, at two inputs.  When the ordering submission has
    rejected before the identity switch fails, the listener promise carries
    the switch error and the invocation the submission error.  When the
    switch fails with an error that cannot be serialised, the invocation
    does not reject at all. *)
Lemma admin_switch_failure_after_send_rejection :
  txPromise (run "tx-1" MAX_TIMEOUT hub_reports_shutdown
                 [order_unreachable; admin_switch_fails] (commitStart peer0 []))
  = Rejected (Rejection "no admin identity")
  /\ snd (invoke (example_args (Some [peer0])) (example_env good_endorsement)
            [order_unreachable; admin_switch_fails])
     = Rejected (Rejection "orderer unreachable")
  /\ snd (invoke (example_args (Some [peer0])) (example_env good_endorsement)
            [order_unreachable; admin_switch_fails])
     <> Rejected (Rejection "no admin identity")
  /\ snd (invoke (example_args (Some [peer0])) (example_env good_endorsement)
            [order_success; admin_switch_fails_cyclic])
     = Pending.
Proof.
  split; [reflexivity|]. split; [reflexivity|]. split; [|reflexivity].
  vm_compute. discriminate.
Qed.

(** C10 (amended): when the switch to the admin identity of the listening
    peer fails, the listener promise rejects with that error and the only
    call made after the switch is that rejection: no timer, no connection,
    no registration.  The error that reaches the final catch is that same
    error, unless the ordering submission has rejected before, in which
    case it is the error of the submission; the invocation rejects with it
    when it can be serialised. *)
Theorem admin_switch_failure {rt : Runtime} (a : InvokeArgs) (env : Env)
    (p : Peer) (rest : list Peer) (tr : list Call) (ev : Evaluation)
    (pre : list Event) (e : JsError) (post : list Event) :
  uniquePeers (peers a) = p :: rest ->
  endorse a env (p :: rest) p [] = (tr, Resolve ev) ->
  forallb (fun ev => negb (is_admin_event ev)) pre = true ->
  txPromise (run (env_transaction_id env) (timeout_of a) (env_hub_shutdown env)
                 (pre ++ EvAdminContext (Reject e) :: post) (commitStart p tr))
  = Rejected e
  /\ fst (invoke a env (pre ++ EvAdminContext (Reject e) :: post))
     = (tr ++ commit_calls p ++ [TxPromiseReject e])%list
  /\ (stringifies (match send_after pre Pending with
                   | Rejected e' => e'
                   | _ => e
                   end) = true ->
      snd (invoke a env (pre ++ EvAdminContext (Reject e) :: post))
      = Rejected (match send_after pre Pending with
                  | Rejected e' => e'
                  | _ => e
                  end)).
Proof.
  intros Hup Hend Hpre.
  rewrite (invoke_commit a env _ p rest tr ev Hup Hend).
  rewrite (run_admin_rejected _ _ _ p tr pre e post Hpre).
  split; [reflexivity|]. split; [reflexivity|].
  intros Hs. cbn [snd allPromise failed outcome]. unfold final_catch.
  now rewrite Hs.
Qed.

(** The submission is accepted, then the identity switch fails: the
    invocation rejects with the error of the switch. *)
Lemma admin_switch_failure_example :
  snd (invoke (example_args (Some [peer0])) (example_env good_endorsement)
         ([order_success] ++ admin_switch_fails :: [EvTimer]))
  = Rejected (Rejection "no admin identity").
Proof.
  refine (proj2 (proj2 (admin_switch_failure (rt := example_runtime)
            (example_args (Some [peer0])) (example_env good_endorsement)
            peer0 [] _ _ [order_success] (Rejection "no admin identity")
            [EvTimer] _ _ _)) _).
  - reflexivity.
  - reflexivity.
  - reflexivity.
  - reflexivity.
Defined.

(** ** Where the listener departs from its contract *)

(** C1: the first transport error already ends the listener with the fatal
    eventhub error and schedules no re-arm; [onError] re-arms only once
    [retries] has reached the bound, the comparison being the wrong way
    round. *)
Theorem first_hub_error_is_fatal :
  (forall shutdown,
      txPromise (armed_then_hub_error shutdown)
      = Rejected (NewError (eventhub_message "Error: disconnected"))
      /\ rearm (armed_then_hub_error shutdown) = 0
      /\ retries (armed_then_hub_error shutdown) = 1)
  /\ snd (invoke (example_args (Some [peer0])) (example_env good_endorsement)
            [order_success; admin_switched; EvHubError "Error: disconnected"])
     = Rejected (NewError (eventhub_message "Error: disconnected"))
  /\ (forall err st,
        rearm (onError err st)
        = if (MAX_RETRIES_EVENT_HUB <=? retries st)%nat
          then S (rearm st) else rearm st).
Proof.
  split; [intros shutdown; repeat split|]. split; [reflexivity|].
  intros err st. apply onError_rearms.
Qed.

(** C2: after the fatal eventhub error the deadline timer is still armed;
    it later fires, disconnects and calls the rejection once more (after
    the rejection the hub may have added by reporting its shutdown).  The
    commit-event callback, for its part, never leaves the timer armed. *)
Theorem fatal_hub_error_leaves_timer_armed (shutdown : option string) :
  is_settled (txPromise (armed_then_hub_error shutdown)) = true
  /\ timer (armed_then_hub_error shutdown) = TimerArmed
  /\ trace (armed_then_hub_error shutdown)
     = (commit_calls peer0
          ++ [SetTimeout MAX_TIMEOUT; Connect; RegisterTxEvent "tx-1";
              TxPromiseReject
                (NewError (eventhub_message "Error: disconnected"))])%list
  /\ trace (step "tx-1" MAX_TIMEOUT shutdown
                 (armed_then_hub_error shutdown) EvTimer)
     = (trace (armed_then_hub_error shutdown)
          ++ Disconnect :: shutdown_report_calls shutdown
          ++ [TxPromiseReject (NewError timeout_message)])%list
  /\ (forall txid code st, timer (onEvent txid code st) <> TimerArmed).
Proof.
  do 3 (split; [reflexivity|]). split.
  - destruct shutdown; reflexivity.
  - intros txid code st. apply onEvent_cleans_up.
Qed.

(** C5: a commit event with code MVCC_READ_CONFLICT rejects the invocation
    with an error whose message is the text of a plain object; the code
    does not occur in it.  [onEvent] gives that same message for every
    code other than VALID. *)
Theorem invalid_commit_rejection_hides_code :
  snd (invoke (example_args (Some [peer0])) (example_env good_endorsement)
         [order_success; admin_switched; EvCommit "MVCC_READ_CONFLICT"])
  = Rejected (NewError "[object Object]")
  /\ contains "MVCC_READ_CONFLICT" "[object Object]" = false
  /\ (forall txid code st,
        txPromise (onEvent txid code st)
        = settle (txPromise st)
            (if String.eqb code "VALID"
             then Resolved (mkReturnStatus code txid)
             else Rejected (NewError object_to_string))).
Proof.
  repeat split. intros txid code st. apply onEvent_settles.
Qed.

(** C6: when the listener ends with the fatal eventhub error the hub is
    still connected and no disconnect has been called. *)
Theorem fatal_hub_error_leaves_hub_connected :
  (forall shutdown,
      is_settled (txPromise (armed_then_hub_error shutdown)) = true
      /\ connected (armed_then_hub_error shutdown) = true)
  /\ fst (invoke (example_args (Some [peer0])) (example_env good_endorsement)
            [order_success; admin_switched; EvHubError "Error: disconnected"])
     = (broadcast_trace (example_args (Some [peer0]))
          (example_env good_endorsement) [peer0]
          ++ LoadPeerCert peer0 :: commit_calls peer0
          ++ [SetTimeout MAX_TIMEOUT; Connect; RegisterTxEvent "tx-1";
              TxPromiseReject
                (NewError (eventhub_message "Error: disconnected"))])%list
  /\ (forall txid code st, connected (onEvent txid code st) = false)
  /\ (forall shutdown st, connected (onTimeout shutdown st) = false).
Proof.
  split; [intros shutdown; split; reflexivity|]. split; [reflexivity|]. split.
  - intros txid code st. apply onEvent_cleans_up.
  - intros shutdown st. apply onTimeout_disconnects.
Qed.

(** C3: the reconciliation itself does what is asked of it, but it is
    never given a failed commit.  With a refused submission and a commit
    event of code MVCC_READ_CONFLICT the invocation rejects with the text
    of a plain object, where the reconciliation of these two results gives
    the two reasons, one per line; and whatever the events, a listener
    result that reaches the reconciliation is that of a VALID event.  With
    a VALID event the outcome is the reconciled one: the decoded payload
    for status SUCCESS, the ordering reason otherwise. *)
Theorem reconciliation_never_sees_invalid_commit :
  snd (invoke (example_args (Some [peer0])) (example_env good_endorsement)
         [order_refused; admin_switched; EvCommit "MVCC_READ_CONFLICT"])
  = Rejected (NewError "[object Object]")
  /\ reconcile (rt := example_runtime) (decode porsche_payload)
       (Some (mkBroadcastResponse "BAD_REQUEST"))
       (Some (mkReturnStatus "MVCC_READ_CONFLICT" "tx-1"))
     = Rejected (NewError
         (order_failure_message ++ newline
            ++ commit_failure_message "MVCC_READ_CONFLICT"))
  /\ (forall txid ms shutdown evs p tr,
        results_valid txid (run txid ms shutdown evs (commitStart p tr)))
  /\ snd (invoke (example_args (Some [peer0])) (example_env good_endorsement)
            [order_success; admin_switched; EvCommit "VALID"])
     = Resolved (decode (rt := example_runtime) porsche_payload)
  /\ snd (invoke (example_args (Some [peer0])) (example_env good_endorsement)
            [order_refused; admin_switched; EvCommit "VALID"])
     = Rejected (NewError order_failure_message).
Proof.
  split; [reflexivity|]. split; [reflexivity|]. split.
  - intros txid ms shutdown evs p tr. apply run_results_valid.
    split; exact I.
  - split; reflexivity.
Qed.

(** * Further properties *)

(** ** The peer registry, for every list *)

Section RegistryMore.

Import JsObject JsObjectFacts.
Implicit Types (o : JsObject.t Peer) (ps : list Peer) (p : Peer).

Lemma get_keys k o : In k (map fst o) <-> get k o <> None.
Proof.
  induction o as [|[k' v'] o IH]; simpl.
  - split; [tauto | congruence].
  - destruct (String.eqb_spec k k') as [->|Hne].
    + split; [discriminate | now left].
    + rewrite <- IH. split; [intros [Heq|Hin]; [congruence | assumption] | now right].
Qed.

Lemma last_with_cn_In c ps p :
  last_with_cn c ps = Some p -> In p ps /\ cn p = c.
Proof.
  unfold last_with_cn. intros H. apply find_some in H as [Hin Heq].
  split; [now apply in_rev | now apply String.eqb_eq].
Qed.

Lemma last_with_cn_found c ps :
  In c (map cn ps) <-> last_with_cn c ps <> None.
Proof.
  unfold last_with_cn. split.
  - intros Hin Hnone. apply in_map_iff in Hin as [p [Hcn Hp]].
    rewrite in_rev in Hp. pose proof (find_none _ _ Hnone p Hp) as Hf.
    simpl in Hf. subst c. rewrite String.eqb_refl in Hf. discriminate.
  - intros Hsome.
    destruct (find (fun q => String.eqb (cn q) c) (rev ps)) as [p|] eqn:E;
      [|congruence].
    apply find_some in E as [Hin Heq]. apply String.eqb_eq in Heq.
    apply in_map_iff. exists p. split; [assumption | now apply in_rev].
Qed.

Lemma peersMap_has_key c ps :
  In c (map fst (peersMap (Some ps))) <-> In c (map cn ps) /\ c <> proto_key.
Proof.
  split.
  - intros Hin.
    assert (Hproto : c <> proto_key).
    { apply in_map_iff in Hin as [[k v] [Hk He]]. simpl in Hk. subst k.
      pose proof (peersMap_keyed ps) as Hkeyed. unfold keyed in Hkeyed.
      rewrite Forall_forall in Hkeyed. apply (Hkeyed _ He). }
    split; [|assumption].
    apply get_keys in Hin.
    rewrite peersMap_assign_all, (assign_all_get _ ps Hproto) in Hin.
    apply last_with_cn_found.
    destruct (last_with_cn c ps); [discriminate | simpl in Hin; congruence].
  - intros [Hin Hproto]. apply get_keys.
    rewrite peersMap_assign_all, (assign_all_get _ ps Hproto).
    apply last_with_cn_found in Hin.
    destruct (last_with_cn c ps); [discriminate | congruence].
Qed.

Lemma uniquePeers_identities ps :
  map cn (uniquePeers (Some ps)) = keys (peersMap (Some ps)).
Proof. unfold uniquePeers. apply uniquePeers_cn, peersMap_keyed. Qed.

Lemma keys_In c o : In c (keys o) <-> In c (map fst o).
Proof.
  unfold keys. split; apply Permutation_in, Permutation_map.
  - apply entries_perm.
  - symmetry. apply entries_perm.
Qed.

Lemma filter_swap {A} (f g : A -> bool) (l : list A) :
  filter f (filter g l) = filter g (filter f l).
Proof.
  rewrite !filter_both. apply filter_ext. intros x. apply andb_comm.
Qed.

Lemma filter_first_occurrences (f : string -> bool) (l : list string) :
  filter f (first_occurrences l) = first_occurrences (filter f l).
Proof.
  induction l as [|x l IH]; simpl; [reflexivity|].
  destruct (f x) eqn:Hf; simpl.
  - f_equal. rewrite filter_swap. now rewrite IH.
  - rewrite filter_absorb; [assumption|].
    intros y Hy. destruct (String.eqb_spec y x) as [->|]; [congruence | reflexivity].
Qed.

Lemma map_fst_filter {V} (f : string -> bool) (l : list (string * V)) :
  map fst (filter (fun e => f (fst e)) l) = filter f (map fst l).
Proof.
  induction l as [|e l IH]; simpl; [reflexivity|].
  destruct (f (fst e)); simpl; now rewrite IH.
Qed.

(** The keys in creation order, for every list. *)
Lemma assign_all_creation_order ps :
  forall o,
    map fst (assign_all ps o) =
    (map fst o ++
       filter (fun k => negb (mem k (map fst o)))
         (first_occurrences
            (filter (fun k => negb (String.eqb k proto_key)) (map cn ps))))%list.
Proof.
  induction ps as [|p ps IH]; simpl; intros o.
  - now rewrite app_nil_r.
  - rewrite IH. unfold set.
    destruct (String.eqb_spec (cn p) proto_key) as [Heq|Hne]; simpl;
      [reflexivity|].
    destruct (mem (cn p) (map fst o)) eqn:Hmem; simpl.
    + apply mem_In in Hmem. rewrite put_keys_present by assumption.
      f_equal. symmetry. apply filter_absorb.
      intros x Hx. destruct (String.eqb_spec x (cn p)) as [->|]; [|reflexivity].
      apply mem_In in Hmem. rewrite Hmem in Hx. discriminate.
    + assert (Hnin : ~ In (cn p) (map fst o)).
      { intros Hin. apply mem_In in Hin. congruence. }
      rewrite put_keys_absent by assumption.
      rewrite <- app_assoc. simpl. do 2 f_equal.
      rewrite filter_both. apply filter_ext. intros x.
      rewrite mem_app. simpl. rewrite orb_false_r, negb_orb. reflexivity.
Qed.

Lemma named_keys_order ps :
  map fst (filter (fun e => negb (is_index (fst e))) (peersMap (Some ps))) =
  first_occurrences (filter ordinary_key (map cn ps)).
Proof.
  rewrite (map_fst_filter (fun k => negb (is_index k))).
  rewrite peersMap_assign_all, assign_all_creation_order. simpl.
  rewrite (filter_all (fun k => negb (mem k []))) by (apply Forall_forall; reflexivity).
  rewrite filter_first_occurrences, filter_both. reflexivity.
Qed.

Lemma index_entry_le {V} (e e' : string * V) :
  is_index (fst e) = true -> is_index (fst e') = true ->
  (index_of_entry e <= index_of_entry e')%N ->
  match array_index (fst e), array_index (fst e') with
  | Some n, Some n' => (n <= n')%N
  | _, _ => False
  end.
Proof.
  unfold is_index, index_of_entry.
  destruct (array_index (fst e)), (array_index (fst e')); try discriminate.
  tauto.
Qed.

Lemma ascending_head_weaken k k' rest :
  match array_index k, array_index k' with
  | Some n, Some n' => (n <= n')%N
  | _, _ => False
  end ->
  Forall (fun k'' =>
            match array_index k', array_index k'' with
            | Some n, Some n' => (n <= n')%N
            | _, _ => False
            end) rest ->
  Forall (fun k'' =>
            match array_index k, array_index k'' with
            | Some n, Some n' => (n <= n')%N
            | _, _ => False
            end) rest.
Proof.
  intros Hle Hall. eapply Forall_impl; [|exact Hall]. intros k'' H. simpl in H.
  destruct (array_index k), (array_index k'), (array_index k''); try tauto.
  lia.
Qed.

Lemma insert_by_index_ascending {V} (e : string * V) (l : list (string * V)) :
  is_index (fst e) = true ->
  Forall (fun e' => is_index (fst e') = true) l ->
  ascending (map fst l) ->
  ascending (map fst (insert_by_index e l)).
Proof.
  intros He. induction l as [|e' l IH]; simpl; intros Hall Hasc.
  - split; constructor.
  - inversion Hall as [|? ? He' Hall']; subst. destruct Hasc as [Hhead Hasc].
    destruct (N.leb_spec (index_of_entry e) (index_of_entry e')) as [Hle|Hgt];
      simpl.
    + pose proof (index_entry_le e e' He He' Hle) as Hrel.
      split; [|split; assumption].
      constructor; [exact Hrel|].
      now apply (ascending_head_weaken _ (fst e')).
    + split; [|now apply IH].
      assert (Hrel : match array_index (fst e'), array_index (fst e) with
                     | Some n, Some n' => (n <= n')%N
                     | _, _ => False
                     end).
      { apply index_entry_le; [assumption | assumption | lia]. }
      apply Forall_forall. intros k Hk.
      apply in_map_iff in Hk as [x [<- Hx]].
      apply (Permutation_in _ (insert_by_index_perm e l)) in Hx.
      destruct Hx as [<-|Hx]; [exact Hrel|].
      rewrite Forall_forall in Hhead. apply Hhead. now apply in_map.
Qed.

Lemma sort_by_index_ascending {V} (l : list (string * V)) :
  Forall (fun e => is_index (fst e) = true) l ->
  ascending (map fst (sort_by_index l)).
Proof.
  induction l as [|e l IH]; simpl; intros Hall; [exact I|].
  inversion Hall as [|? ? He Hall']; subst.
  apply insert_by_index_ascending; [assumption | | now apply IH].
  apply Forall_forall. intros x Hx.
  apply (Permutation_in _ (sort_by_index_perm l)) in Hx.
  rewrite Forall_forall in Hall'. now apply Hall'.
Qed.

Lemma uniquePeers_In_last ps p :
  In p (uniquePeers (Some ps)) -> last_with_cn (cn p) ps = Some p.
Proof.
  intros Hin. unfold uniquePeers, values in Hin.
  apply in_map_iff in Hin as [[k v] [Hv He]]. simpl in Hv. subst v.
  apply (Permutation_in _ (entries_perm _)) in He.
  pose proof (peersMap_keyed ps) as Hk. unfold keyed in Hk.
  rewrite Forall_forall in Hk. destruct (Hk _ He) as [Hcn Hproto].
  simpl in Hcn, Hproto. subst k.
  apply (get_In _ _ _ (peersMap_NoDup ps)) in He.
  rewrite peersMap_assign_all, (assign_all_get _ ps Hproto) in He.
  simpl in He. destruct (last_with_cn (cn p) ps); [assumption | discriminate].
Qed.

End RegistryMore.

(** The deduplicated list holds exactly the identities of the input, the
    identity [__proto__] apart, and every peer in it is one of the given
    descriptors. *)
Theorem uniquePeers_same_identities (ps : list Peer) :
  (forall p, In p (uniquePeers (Some ps)) -> In p ps)
  /\ (forall c, In c (map cn (uniquePeers (Some ps)))
                <-> In c (map cn ps) /\ c <> JsObject.proto_key).
Proof.
  split.
  - intros p Hp.
    apply uniquePeers_In_last in Hp. now apply last_with_cn_In in Hp.
  - intros c. rewrite uniquePeers_identities, keys_In. apply peersMap_has_key.
Qed.

(** A list naming [peer0] twice and carrying a [__proto__] entry: only
    [peer0] is left. *)
Lemma uniquePeers_same_identities_example :
  In "peer0" (map cn (uniquePeers (Some
       [peer0; peer_numbered "__proto__" "x"; peer0_again])))
  /\ ~ In "__proto__" (map cn (uniquePeers (Some
       [peer0; peer_numbered "__proto__" "x"; peer0_again]))).
Proof.
  pose proof (proj2 (uniquePeers_same_identities
                       [peer0; peer_numbered "__proto__" "x"; peer0_again]))
    as H.
  split.
  - apply H. split; [now left | discriminate].
  - intros Hin. apply H in Hin. destruct Hin as [_ Hne]. now apply Hne.
Defined.

(** The order of the deduplicated list, for every list: first the
    identities that are array indices, in ascending numeric order, then the
    other identities in the order of their first occurrence. *)
Theorem uniquePeers_enumeration_order (ps : list Peer) :
  exists indexed,
    map cn (uniquePeers (Some ps)) =
    (indexed ++ first_occurrences (filter JsObject.ordinary_key (map cn ps)))%list
    /\ ascending indexed
    /\ (forall c, In c indexed
                  <-> In c (map cn ps) /\ JsObject.is_index c = true).
Proof.
  exists (map fst (JsObject.sort_by_index
                     (filter (fun e => JsObject.is_index (fst e))
                             (peersMap (Some ps))))).
  split; [|split].
  - rewrite uniquePeers_identities. unfold JsObject.keys, JsObject.entries.
    rewrite map_app. f_equal. apply named_keys_order.
  - apply sort_by_index_ascending. apply Forall_forall.
    intros e He. now apply filter_In in He.
  - intros c. split.
    + intros Hin. apply in_map_iff in Hin as [e [Hc He]]. subst c.
      apply (Permutation_in _ (JsObjectFacts.sort_by_index_perm _)) in He.
      apply filter_In in He as [He Hidx]. split; [|assumption].
      apply (peersMap_has_key (fst e) ps). now apply in_map.
    + intros [Hin Hidx].
      assert (Hproto : c <> JsObject.proto_key).
      { intros ->. vm_compute in Hidx. discriminate. }
      pose proof (proj2 (peersMap_has_key c ps) (conj Hin Hproto)) as Hkey.
      apply in_map_iff in Hkey as [e [Hc He]]. subst c.
      apply in_map.
      apply (Permutation_in _ (Permutation_sym
                                 (JsObjectFacts.sort_by_index_perm _))).
      apply filter_In. now split.
Qed.

(** ** The request and the stages before the commit *)

Lemma dropRightWhile_trims {A} (f : A -> bool) (l : list A) :
  exists dropped,
    l = (dropRightWhile f l ++ dropped)%list
    /\ Forall (fun x => f x = true) dropped
    /\ (forall init x, dropRightWhile f l = (init ++ [x])%list -> f x = false).
Proof.
  induction l as [|a l IH]; simpl.
  - exists []. repeat split; [constructor|].
    intros init x H. destruct init; discriminate.
  - destruct IH as [dropped [Hl [Hall Hlast]]].
    destruct (dropRightWhile f l) as [|k kept] eqn:Hkept.
    + simpl in Hl. subst dropped. destruct (f a) eqn:Hfa.
      * exists (a :: l). repeat split; [now constructor|].
        intros init x H. destruct init; discriminate.
      * exists l. repeat split; [assumption|].
        intros init x H. destruct init as [|b init]; simpl in H.
        -- now inversion H; subst.
        -- inversion H as [[Hb Hnil]]. destruct init; discriminate.
    + exists dropped. split; [simpl; now rewrite Hl at 1|]. split; [assumption|].
      intros init x H. destruct init as [|b init]; simpl in H;
        [discriminate|].
      inversion H as [[Hb Hrest]]. now apply (Hlast init).
Qed.

(** The request carries the serialized arguments without the trailing
    undefined ones, and nothing else is dropped: what is left out is a
    run of undefined values at the end, and the last argument sent is
    defined. *)
Theorem request_args_trimmed {rt : Runtime} (a : InvokeArgs) (txid : string) :
  exists dropped,
    map serializeArg (chaincode_args (chaincode a)) =
    (args (request_of a txid) ++ dropped)%list
    /\ Forall (fun x => x = None) dropped
    /\ (forall init x, args (request_of a txid) = (init ++ [x])%list ->
                       x <> None).
Proof.
  destruct (dropRightWhile_trims
              (fun arg => match arg with None => true | Some _ => false end)
              (map serializeArg (chaincode_args (chaincode a))))
    as [dropped [Hl [Hall Hlast]]].
  exists dropped. split; [exact Hl|]. split.
  - eapply Forall_impl; [|exact Hall]. intros [x|] H; [discriminate | reflexivity].
  - intros init x Hx ->. apply Hlast in Hx. discriminate.
Qed.

(** A failure of client creation, of the switch to the caller's identity
    or of the broadcast ends the chain at the call that failed: no later
    call is made (in particular no proposal is sent after a failed
    identity switch) and the error goes to the final catch, which rejects
    the invocation with it when it can be serialised and otherwise leaves
    the invocation pending. *)
Theorem broadcast_failure_stops {rt : Runtime} (a : InvokeArgs) (env : Env)
    (evs : list Event) (p : Peer) (rest : list Peer) (e : JsError) :
  uniquePeers (peers a) = p :: rest ->
  (env_createFabricClient env = Reject e ->
   invoke a env evs =
   ([CreateFabricClient (p :: rest) (orderer a) (channelId a)],
    if stringifies e then Rejected e else Pending))
  /\ (env_createFabricClient env = Resolve tt ->
      env_setUserContext env = Reject e ->
      invoke a env evs =
      ([CreateFabricClient (p :: rest) (orderer a) (channelId a);
        SetUserContext (userId a)],
       if stringifies e then Rejected e else Pending))
  /\ (env_createFabricClient env = Resolve tt ->
      env_setUserContext env = Resolve tt ->
      env_sendTransactionProposal env = Reject e ->
      invoke a env evs =
      (broadcast_trace a env (p :: rest),
       if stringifies e then Rejected e else Pending)).
Proof.
  intros Hup. repeat split.
  - intros Hc. apply (invoke_stops a env evs p rest); [assumption|].
    unfold endorse, broadcast, bind, call. now rewrite Hc.
  - intros Hc Hu. apply (invoke_stops a env evs p rest); [assumption|].
    unfold endorse, broadcast, bind, call. now rewrite Hc, Hu.
  - intros Hc Hu Hp. apply (invoke_stops a env evs p rest); [assumption|].
    unfold endorse, broadcast, bind, call. now rewrite Hc, Hu, Hp.
Qed.

(** One failing stage each: the trace ends at the call that failed. *)
Lemma broadcast_failure_stops_example :
  fst (invoke (example_args (Some [peer0])) env_client_fails [order_success])
  = [CreateFabricClient [peer0] "grpc://orderer:7050" "mychannel"]
  /\ snd (invoke (example_args (Some [peer0])) env_user_fails [order_success])
     = Rejected (Rejection "unknown user")
  /\ snd (invoke (example_args (Some [peer0])) env_proposal_fails [order_success])
     = Rejected (Rejection "peer unreachable").
Proof.
  split; [|split].
  - rewrite (proj1 (broadcast_failure_stops (rt := example_runtime)
               (example_args (Some [peer0])) env_client_fails [order_success]
               peer0 [] (Rejection "no client") eq_refl) eq_refl).
    reflexivity.
  - rewrite (proj1 (proj2 (broadcast_failure_stops (rt := example_runtime)
               (example_args (Some [peer0])) env_user_fails [order_success]
               peer0 [] (Rejection "unknown user") eq_refl)) eq_refl eq_refl).
    reflexivity.
  - rewrite (proj2 (proj2 (broadcast_failure_stops (rt := example_runtime)
               (example_args (Some [peer0])) env_proposal_fails [order_success]
               peer0 [] (Rejection "peer unreachable") eq_refl))
               eq_refl eq_refl eq_refl).
    reflexivity.
Defined.

(** After a good endorsement, a failure to load the certificate of the
    listening peer ends the chain before anything is submitted: the
    transaction is not sent to the orderer and no event hub is created,
    whatever happens afterwards.  The error goes to the final catch, which
    rejects the invocation with it when it can be serialised and otherwise
    leaves the invocation pending. *)
Theorem certificate_failure_stops {rt : Runtime} (a : InvokeArgs) (env : Env)
    (evs : list Event) (p : Peer) (rest : list Peer)
    (first : ProposalResponse) (others : list ProposalResponse) (e : JsError) :
  uniquePeers (peers a) = p :: rest ->
  broadcast_answers env (Some (first :: others)) ->
  first_is_good first = true ->
  env_loadPeerCert env = Reject e ->
  invoke a env evs =
  ((broadcast_trace a env (p :: rest) ++ [LoadPeerCert p])%list,
   if stringifies e then Rejected e else Pending).
Proof.
  intros Hup Hans Hgood Hcert.
  apply (invoke_stops a env evs p rest); [assumption|].
  unfold endorse, bind. rewrite (broadcast_resolves _ _ _ _ Hans).
  unfold first_is_good in Hgood. unfold evaluate.
  destruct (response first) as [r|]; [|discriminate]. simpl.
  rewrite Hgood. unfold call. now rewrite Hcert.
Qed.

Lemma certificate_failure_stops_example :
  invoke (example_args (Some [peer0])) env_cert_fails
         [order_success; admin_switched; EvCommit "VALID"]
  = ((broadcast_trace (example_args (Some [peer0])) env_cert_fails [peer0]
        ++ [LoadPeerCert peer0])%list,
     Rejected (Rejection "no certificate")).
Proof.
  apply (certificate_failure_stops (rt := example_runtime)
           (example_args (Some [peer0])) env_cert_fails _ peer0 []
           good_endorsement [] (Rejection "no certificate")).
  - reflexivity.
  - repeat split.
  - reflexivity.
  - reflexivity.
Defined.

(** A broadcast that resolves without a list of responses is rejected with
    the generic message; one that resolves with an empty list is rejected
    with the type error of reading its first entry.  Neither goes on to
    the commit stage. *)
Theorem missing_responses_rejected {rt : Runtime} (a : InvokeArgs) (env : Env)
    (evs : list Event) (p : Peer) (rest : list Peer) :
  uniquePeers (peers a) = p :: rest ->
  (broadcast_answers env None ->
   invoke a env evs =
   (broadcast_trace a env (p :: rest),
    Rejected (NewError generic_proposal_message)))
  /\ (broadcast_answers env (Some []) ->
      invoke a env evs = (broadcast_trace a env (p :: rest), Rejected TypeError)).
Proof.
  intros Hup. split; intros Hans;
    apply (invoke_stops_serialisable a env evs p rest);
    try assumption; try reflexivity;
    unfold endorse, bind; rewrite (broadcast_resolves _ _ _ _ Hans);
    reflexivity.
Qed.

Lemma missing_responses_rejected_example :
  snd (invoke (example_args (Some [peer0])) env_no_responses [order_success])
  = Rejected (NewError generic_proposal_message)
  /\ snd (invoke (example_args (Some [peer0])) env_empty_responses
            [order_success])
     = Rejected TypeError.
Proof.
  split.
  - rewrite (proj1 (missing_responses_rejected (rt := example_runtime)
               (example_args (Some [peer0])) env_no_responses [order_success]
               peer0 [] eq_refl)); [reflexivity | repeat split].
  - rewrite (proj2 (missing_responses_rejected (rt := example_runtime)
               (example_args (Some [peer0])) env_empty_responses
               [order_success] peer0 [] eq_refl)); [reflexivity | repeat split].
Defined.

(** ** The listener leg, phase by phase *)

Section ListenerPhases.

Variable transactionIdString : string.
Variable maxTimeout : N.
Variable shutdown : option string.

Lemma send_after_app l1 l2 send :
  send_after (l1 ++ l2) send = send_after l2 (send_after l1 send).
Proof.
  revert send. induction l1 as [|ev l1 IH]; intros send; [reflexivity|].
  destruct ev; simpl; apply IH.
Qed.

Lemma step_admin_switched tr send u :
  step transactionIdString maxTimeout shutdown (waiting tr send)
       (EvAdminContext (Resolve u)) =
  listening (tr ++ arming_calls transactionIdString maxTimeout)%list send.
Proof.
  run_callbacks. rewrite <- !app_assoc. reflexivity.
Qed.

Lemma step_listening tr send ev :
  is_listener_event ev = false ->
  step transactionIdString maxTimeout shutdown (listening tr send) ev =
  listening tr (send_after [ev] send).
Proof.
  destruct ev as [r | r | code | err | | ]; simpl; intros Hev;
    try discriminate; try reflexivity.
  all: destruct send; try reflexivity; destruct r; reflexivity.
Qed.

Lemma run_listening mid :
  forall tr send,
    forallb (fun ev => negb (is_listener_event ev)) mid = true ->
    run transactionIdString maxTimeout shutdown mid (listening tr send) =
    listening tr (send_after mid send).
Proof.
  induction mid as [|ev mid IH]; intros tr send Hmid; [reflexivity|].
  simpl in Hmid. apply andb_prop in Hmid as [Hev Hmid].
  apply negb_true_iff in Hev.
  rewrite run_cons, (step_listening _ _ _ Hev), IH by assumption.
  now rewrite <- send_after_cons.
Qed.

Lemma step_commit_valid tr send :
  step transactionIdString maxTimeout shutdown (listening tr send) (EvCommit "VALID") =
  committed (tr ++ commit_cleanup_calls transactionIdString)%list send
            (mkReturnStatus "VALID" transactionIdString).
Proof.
  run_callbacks. simpl. rewrite <- !app_assoc. simpl.
  destruct send; reflexivity.
Qed.

Lemma step_committed tr send r ev :
  step transactionIdString maxTimeout shutdown (committed tr send r) ev =
  committed tr (send_after [ev] send) r.
Proof.
  destruct ev as [r' | r' | code | err | | ]; try reflexivity.
  all: destruct send; try reflexivity; destruct r'; reflexivity.
Qed.

Lemma run_committed post :
  forall tr send r,
    run transactionIdString maxTimeout shutdown post (committed tr send r) =
    committed tr (send_after post send) r.
Proof.
  induction post as [|ev post IH]; intros tr send r; [reflexivity|].
  rewrite run_cons, step_committed, IH. now rewrite <- send_after_cons.
Qed.

Lemma step_deadline tr send :
  step transactionIdString maxTimeout shutdown (listening tr send) EvTimer =
  mkListener false TimerFired
    (match shutdown with Some _ => 1 | None => 0 end) true false 0
    (Rejected (deadline_error shutdown)) send
    (Rejected (match send with
               | Rejected e' => e'
               | _ => deadline_error shutdown
               end))
    (tr ++ deadline_calls shutdown)%list.
Proof.
  run_callbacks. destruct shutdown as [err|]; simpl;
    rewrite <- !app_assoc; simpl; destruct send; reflexivity.
Qed.

End ListenerPhases.

(** ** What no event can do *)

Section ListenerInvariants.

Variable transactionIdString : string.
Variable maxTimeout : N.
Variable shutdown : option string.

(** A settled promise keeps its state through every event. *)
Lemma step_keeps_settled st ev :
  (txPromise st <> Pending ->
   txPromise (step transactionIdString maxTimeout shutdown st ev) = txPromise st)
  /\ (allPromise st <> Pending ->
      allPromise (step transactionIdString maxTimeout shutdown st ev) = allPromise st).
Proof.
  destruct st as [ap tm rt rg cd rm tx sd al tr].
  destruct ev as [r | r | code | err | | ]; run_callbacks.
  - destruct sd; simpl; split; intros H; try reflexivity.
    destruct al; [congruence | reflexivity | reflexivity].
  - destruct ap; [|split; reflexivity].
    destruct r; split; intros H; destruct tx, al; simpl; congruence.
  - destruct rg; [|split; reflexivity].
    destruct tm, (String.eqb code "VALID"); simpl; split; intros H;
      destruct tx, al; simpl; congruence.
  - destruct rg; [|split; reflexivity].
    destruct (MAX_RETRIES_EVENT_HUB <=? rt)%nat; simpl; split; intros H;
      destruct tx, al; simpl; congruence.
  - destruct tm; try (split; reflexivity).
    destruct rg; [destruct shutdown as [err|]|];
      try destruct (MAX_RETRIES_EVENT_HUB <=? rt)%nat;
      split; intros H; destruct tx, al; simpl; congruence.
  - destruct rm; split; reflexivity.
Qed.

Lemma run_keeps_all more :
  forall st,
    allPromise st <> Pending ->
    allPromise (run transactionIdString maxTimeout shutdown more st) = allPromise st.
Proof.
  induction more as [|ev more IH]; intros st Hst; [reflexivity|].
  rewrite run_cons.
  pose proof (proj2 (step_keeps_settled st ev) Hst) as Hstep.
  rewrite IH; [assumption | congruence].
Qed.

(** Only a VALID commit event resolves the listener promise, and the
    joined promise resolves only if the listener promise has. *)
Lemma step_not_resolved st ev :
  is_valid_commit ev = false ->
  is_resolved (txPromise st) = false ->
  is_resolved (allPromise st) = false ->
  is_resolved (txPromise (step transactionIdString maxTimeout shutdown st ev)) = false
  /\ is_resolved (allPromise (step transactionIdString maxTimeout shutdown st ev)) = false.
Proof.
  destruct st as [ap tm rt rg cd rm tx sd al tr].
  destruct ev as [r | r | code | err | | ]; run_callbacks;
    intros Hev Htx Hall; simpl in Hev.
  - destruct sd; try (split; assumption).
    destruct r, tx, al; simpl in *; split; congruence.
  - destruct ap; [|split; assumption].
    destruct r, tx, sd, al; simpl in *; split; congruence.
  - destruct rg; [|split; assumption]. rewrite Hev.
    destruct tm, tx, sd, al; simpl in *; split; congruence.
  - destruct rg; [|split; assumption].
    destruct (MAX_RETRIES_EVENT_HUB <=? rt)%nat, tx, sd, al; simpl in *;
      split; congruence.
  - destruct tm; try (split; assumption).
    destruct rg; [destruct shutdown as [err|]|];
      try destruct (MAX_RETRIES_EVENT_HUB <=? rt)%nat;
      destruct tx, sd, al; simpl in *; split; congruence.
  - destruct rm; split; assumption.
Qed.

Lemma run_not_resolved evs :
  forall st,
    forallb (fun ev => negb (is_valid_commit ev)) evs = true ->
    is_resolved (txPromise st) = false ->
    is_resolved (allPromise st) = false ->
    is_resolved (allPromise (run transactionIdString maxTimeout shutdown evs st)) = false.
Proof.
  induction evs as [|ev evs IH]; intros st Hevs Htx Hall; [assumption|].
  simpl in Hevs. apply andb_prop in Hevs as [Hev Hevs].
  apply negb_true_iff in Hev. rewrite run_cons.
  destruct (step_not_resolved st ev Hev Htx Hall) as [Htx' Hall'].
  now apply IH.
Qed.

(** The events never submit the transaction again, and only the admin
    identity switch, once, starts a timer. *)
Lemma step_submits_nothing st ev :
  filter is_send_transaction
         (trace (step transactionIdString maxTimeout shutdown st ev)) =
  filter is_send_transaction (trace st).
Proof.
  destruct st as [ap tm rt rg cd rm tx sd al tr].
  destruct ev as [r | r | code | err | | ]; run_callbacks.
  - destruct sd; reflexivity.
  - destruct ap; [|reflexivity].
    destruct r; rewrite !filter_app; simpl; now rewrite ?app_nil_r.
  - destruct rg; [|reflexivity].
    destruct tm, (negb (String.eqb code "VALID"));
      rewrite !filter_app; simpl; now rewrite ?app_nil_r.
  - destruct rg; [|reflexivity].
    destruct (MAX_RETRIES_EVENT_HUB <=? rt)%nat;
      rewrite !filter_app; simpl; now rewrite ?app_nil_r.
  - destruct tm; try reflexivity.
    destruct rg; [destruct shutdown as [err|]|];
      try destruct (MAX_RETRIES_EVENT_HUB <=? rt)%nat;
      rewrite !filter_app; simpl; now rewrite ?app_nil_r.
  - destruct rm; [reflexivity|].
    rewrite !filter_app. simpl. now rewrite ?app_nil_r.
Qed.

Lemma run_submits_nothing evs :
  forall st,
    filter is_send_transaction
           (trace (run transactionIdString maxTimeout shutdown evs st)) =
    filter is_send_transaction (trace st).
Proof.
  induction evs as [|ev evs IH]; intros st; [reflexivity|].
  rewrite run_cons, IH. apply step_submits_nothing.
Qed.

Lemma step_timer_once st ev :
  (admin_pending st = true -> filter is_set_timeout (trace st) = []) ->
  List.length (filter is_set_timeout (trace st)) <= 1 ->
  (admin_pending (step transactionIdString maxTimeout shutdown st ev) = true ->
   filter is_set_timeout
          (trace (step transactionIdString maxTimeout shutdown st ev)) = [])
  /\ List.length
       (filter is_set_timeout
               (trace (step transactionIdString maxTimeout shutdown st ev))) <= 1.
Proof.
  destruct st as [ap tm rt rg cd rm tx sd al tr].
  destruct ev as [r | r | code | err | | ]; run_callbacks;
    intros Hzero Hone.
  - destruct sd; split; assumption.
  - destruct ap; [|split; assumption]. specialize (Hzero eq_refl).
    destruct r; rewrite !filter_app, Hzero; simpl;
      split; (discriminate || lia).
  - destruct rg; [|split; assumption].
    destruct tm, (negb (String.eqb code "VALID"));
      rewrite !filter_app; simpl; rewrite ?app_nil_r; split; assumption.
  - destruct rg; [|split; assumption].
    destruct (MAX_RETRIES_EVENT_HUB <=? rt)%nat;
      rewrite !filter_app; simpl; rewrite ?app_nil_r; split; assumption.
  - destruct tm; try (split; assumption).
    destruct rg; [destruct shutdown as [err|]|];
      try destruct (MAX_RETRIES_EVENT_HUB <=? rt)%nat;
      rewrite !filter_app; simpl; rewrite ?app_nil_r; split; assumption.
  - destruct rm; [split; assumption|].
    rewrite !filter_app. simpl. rewrite ?app_nil_r. split; assumption.
Qed.

Lemma run_timer_once evs :
  forall st,
    (admin_pending st = true -> filter is_set_timeout (trace st) = []) ->
    List.length (filter is_set_timeout (trace st)) <= 1 ->
    List.length
      (filter is_set_timeout
              (trace (run transactionIdString maxTimeout shutdown evs st))) <= 1.
Proof.
  induction evs as [|ev evs IH]; intros st Hzero Hone; [assumption|].
  rewrite run_cons.
  destruct (step_timer_once st ev Hzero Hone) as [Hzero' Hone'].
  now apply IH.
Qed.

End ListenerInvariants.

Section StagesMore.

Context {rt : Runtime}.

(** Before the commit stage nothing is submitted and no timer is set. *)
Lemma endorse_trace_quiet (a : InvokeArgs) (env : Env) (ups : list Peer)
    (p : Peer) tr r :
  endorse a env ups p [] = (tr, r) ->
  filter is_set_timeout tr = [] /\ filter is_send_transaction tr = [].
Proof.
  unfold endorse, broadcast, bind, call, ret, throw.
  destruct (env_createFabricClient env); simpl;
    [|intros H; inversion H; split; reflexivity].
  destruct (env_setUserContext env); simpl;
    [|intros H; inversion H; split; reflexivity].
  destruct (env_sendTransactionProposal env) as [prs|]; simpl;
    [|intros H; inversion H; split; reflexivity].
  destruct (evaluate prs) as [ev|]; simpl;
    [|intros H; inversion H; split; reflexivity].
  destruct (isProposalGood ev); simpl;
    [|intros H; inversion H; split; reflexivity].
  destruct (env_loadPeerCert env); intros H; inversion H; split; reflexivity.
Qed.

End StagesMore.

(** ** The invocation as a whole *)

(** One invocation submits the transaction to the orderer at most once and
    starts at most one deadline timer, whatever the events: a re-armed
    listener neither resubmits nor gets a new deadline. *)
Theorem invoke_submits_and_times_once {rt : Runtime} (a : InvokeArgs)
    (env : Env) (evs : list Event) :
  List.length (filter is_send_transaction (fst (invoke a env evs))) <= 1
  /\ List.length (filter is_set_timeout (fst (invoke a env evs))) <= 1.
Proof.
  unfold invoke. destruct (uniquePeers (peers a)) as [|p rest]; [simpl; lia|].
  destruct (endorse a env (p :: rest) p []) as [tr [ev|e]] eqn:Hend;
    destruct (endorse_trace_quiet _ _ _ _ _ _ Hend) as [Htimer Hsend];
    cbn [fst].
  - split.
    + rewrite run_submits_nothing. cbn [trace commitStart].
      rewrite filter_app, Hsend. simpl. lia.
    + apply run_timer_once; cbn [trace commitStart admin_pending];
        rewrite filter_app, Htimer; simpl; [reflexivity | lia].
  - rewrite Hsend, Htimer. simpl. lia.
Qed.

(** The invocation never resolves unless a commit event with code VALID
    has been delivered: without one it is pending or rejected. *)
Theorem invoke_resolves_only_after_valid_commit {rt : Runtime}
    (a : InvokeArgs) (env : Env) (evs : list Event) :
  forallb (fun ev => negb (is_valid_commit ev)) evs = true ->
  is_resolved (snd (invoke a env evs)) = false.
Proof.
  intros Hevs. unfold invoke.
  destruct (uniquePeers (peers a)) as [|p rest]; [reflexivity|].
  destruct (endorse a env (p :: rest) p []) as [tr [ev|e]]; cbn [snd];
    [|unfold final_catch; destruct (stringifies e); reflexivity].
  pose proof (run_not_resolved (env_transaction_id env) (timeout_of a)
                (env_hub_shutdown env) evs
                (commitStart p tr) Hevs eq_refl eq_refl) as Hall.
  destruct (allPromise (run (env_transaction_id env) (timeout_of a)
                            (env_hub_shutdown env) evs
                            (commitStart p tr))) as [|[s r]|e];
    simpl in *; [reflexivity | discriminate |].
  unfold final_catch. destruct (stringifies e); reflexivity.
Qed.

(** An accepted submission and a commit event with another code: the
    invocation is not resolved. *)
Lemma invoke_resolves_only_after_valid_commit_example :
  is_resolved
    (snd (invoke (example_args (Some [peer0])) (example_env good_endorsement)
            [order_success; admin_switched; EvCommit "MVCC_READ_CONFLICT"]))
  = false.
Proof.
  apply (invoke_resolves_only_after_valid_commit (rt := example_runtime)).
  reflexivity.
Defined.

(** The invocation waits for both legs.  With the listener armed and a
    VALID commit event as the first thing it receives, the hub is cleaned
    up in the order clear timer, unregister, disconnect, and the outcome is
    decided by the first settlement of the submission, wherever it falls
    among the events: pending as long as there is none, the reconciled
    verdict when it resolved; when it rejected, its error goes to the
    final catch, which rejects with it if it can be serialised. *)
Theorem both_legs_awaited {rt : Runtime} (a : InvokeArgs) (env : Env)
    (p : Peer) (rest : list Peer) (tr : list Call) (ev : Evaluation)
    (pre mid post : list Event) (u : unit) :
  uniquePeers (peers a) = p :: rest ->
  endorse a env (p :: rest) p [] = (tr, Resolve ev) ->
  forallb (fun e => negb (is_admin_event e)) pre = true ->
  forallb (fun e => negb (is_listener_event e)) mid = true ->
  fst (invoke a env
         (pre ++ EvAdminContext (Resolve u) :: mid ++ EvCommit "VALID" :: post))
  = (tr ++ commit_calls p
        ++ arming_calls (env_transaction_id env) (timeout_of a)
        ++ commit_cleanup_calls (env_transaction_id env))%list
  /\ snd (invoke a env
            (pre ++ EvAdminContext (Resolve u) :: mid ++ EvCommit "VALID" :: post))
     = match send_after (pre ++ mid ++ post) Pending with
       | Pending => Pending
       | Resolved s =>
           match order_succeeded s with
           | true => Resolved (transactionProposalResponse ev)
           | false => Rejected (NewError order_failure_message)
           end
       | Rejected e => if stringifies e then Rejected e else Pending
       end.
Proof.
  intros Hup Hend Hpre Hmid.
  rewrite (invoke_commit a env _ p rest tr ev Hup Hend).
  rewrite run_app, run_cons, commitStart_waiting,
    (run_waiting _ _ _ _ _ _ Hpre).
  rewrite step_admin_switched, run_app, (run_listening _ _ _ _ _ _ Hmid).
  rewrite run_cons, step_commit_valid, run_committed.
  rewrite <- !send_after_app. cbn [fst snd trace allPromise committed]. split.
  - now rewrite <- !app_assoc.
  - destruct (send_after (pre ++ mid ++ post) Pending) as [|s|e];
      [reflexivity | | reflexivity].
    cbn [outcome]. rewrite reconcile_table.
    destruct (order_succeeded s); reflexivity.
Qed.

(** The commit event arrives before the submission returns: the result is
    held until it does. *)
Lemma both_legs_awaited_example :
  snd (invoke (example_args (Some [peer0])) (example_env good_endorsement)
         ([] ++ EvAdminContext (Resolve tt) :: []
             ++ EvCommit "VALID" :: []))
  = Pending
  /\ snd (invoke (example_args (Some [peer0])) (example_env good_endorsement)
            ([] ++ EvAdminContext (Resolve tt) :: []
                ++ EvCommit "VALID" :: [order_success]))
     = Resolved (PParsed (rt := example_runtime) (JObject [("make", "Porsche")])).
Proof.
  split.
  - exact (proj2 (both_legs_awaited (rt := example_runtime)
             (example_args (Some [peer0])) (example_env good_endorsement)
             peer0 [] _ _ [] [] [] tt eq_refl eq_refl eq_refl eq_refl)).
  - exact (proj2 (both_legs_awaited (rt := example_runtime)
             (example_args (Some [peer0])) (example_env good_endorsement)
             peer0 [] _ _ [] [] [order_success] tt
             eq_refl eq_refl eq_refl eq_refl)).
Defined.

(** The deadline.  With the listener armed and nothing received from the
    hub, the invocation stays pending unless the submission has rejected.
    When the timer fires the hub is disconnected with the registration
    still in place: a hub that reports its shutdown to the error callback
    makes the listener reject with the eventhub error, a silent hub leaves
    it to the timeout error.  The invocation is rejected with that error,
    or with the error of a submission that had rejected first if that one
    can be serialised, and nothing that follows changes it. *)
Theorem deadline_rejects {rt : Runtime} (a : InvokeArgs) (env : Env)
    (p : Peer) (rest : list Peer) (tr : list Call) (ev : Evaluation)
    (pre mid post : list Event) (u : unit) :
  uniquePeers (peers a) = p :: rest ->
  endorse a env (p :: rest) p [] = (tr, Resolve ev) ->
  forallb (fun e => negb (is_admin_event e)) pre = true ->
  forallb (fun e => negb (is_listener_event e)) mid = true ->
  snd (invoke a env (pre ++ EvAdminContext (Resolve u) :: mid))
  = match send_after (pre ++ mid) Pending with
    | Rejected e' => if stringifies e' then Rejected e' else Pending
    | _ => Pending
    end
  /\ snd (invoke a env
            (pre ++ EvAdminContext (Resolve u) :: mid ++ EvTimer :: post))
     = match send_after (pre ++ mid) Pending with
       | Rejected e' => if stringifies e' then Rejected e' else Pending
       | _ => Rejected (deadline_error (env_hub_shutdown env))
       end
  /\ (exists more,
        fst (invoke a env
               (pre ++ EvAdminContext (Resolve u) :: mid ++ EvTimer :: post))
        = (tr ++ commit_calls p
              ++ arming_calls (env_transaction_id env) (timeout_of a)
              ++ deadline_calls (env_hub_shutdown env) ++ more)%list).
Proof.
  intros Hup Hend Hpre Hmid. split; [|split].
  - rewrite (invoke_commit a env _ p rest tr ev Hup Hend).
    rewrite run_app, run_cons, commitStart_waiting,
      (run_waiting _ _ _ _ _ _ Hpre).
    rewrite step_admin_switched, (run_listening _ _ _ _ _ _ Hmid).
    rewrite <- send_after_app. cbn [snd allPromise listening].
    destruct (send_after (pre ++ mid) Pending); reflexivity.
  - rewrite (invoke_commit a env _ p rest tr ev Hup Hend).
    rewrite run_app, run_cons, commitStart_waiting,
      (run_waiting _ _ _ _ _ _ Hpre).
    rewrite step_admin_switched, run_app, (run_listening _ _ _ _ _ _ Hmid).
    rewrite run_cons, step_deadline, <- send_after_app. cbn [snd].
    rewrite run_keeps_all by discriminate. cbn [allPromise outcome].
    destruct (send_after (pre ++ mid) Pending) as [|s|e'];
      try reflexivity.
    all: unfold deadline_error, final_catch;
      destruct (env_hub_shutdown env); reflexivity.
  - rewrite (invoke_commit a env _ p rest tr ev Hup Hend).
    rewrite run_app, run_cons, commitStart_waiting,
      (run_waiting _ _ _ _ _ _ Hpre).
    rewrite step_admin_switched, run_app, (run_listening _ _ _ _ _ _ Hmid).
    rewrite run_cons, step_deadline. cbn [fst].
    match goal with
    | |- context [run ?t ?m ?h post ?st] =>
        destruct (run_trace_grows t m h post st) as [more Hmore]
    end.
    rewrite Hmore. cbn [trace]. exists more. now rewrite <- !app_assoc.
Qed.

(** Scenario D: the submission is accepted and no commit event comes.
    With a hub that reports its shutdown the rejection carries that
    report, not the timeout message. *)
Lemma deadline_rejects_example :
  snd (invoke (example_args (Some [peer0])) (example_env good_endorsement)
         ([order_success] ++ EvAdminContext (Resolve tt) :: []))
  = Pending
  /\ snd (invoke (example_args (Some [peer0])) (example_env good_endorsement)
            ([order_success] ++ EvAdminContext (Resolve tt) :: []
                ++ EvTimer :: []))
     = Rejected (NewError
         "There was a problem with the eventhub: Error: EventHub has been shutdown ").
Proof.
  split.
  - refine (proj1 (deadline_rejects (rt := example_runtime)
              (example_args (Some [peer0])) (example_env good_endorsement)
              peer0 [] _ _ [order_success] [] [] tt _ _ _ _)); reflexivity.
  - refine (proj1 (proj2 (deadline_rejects (rt := example_runtime)
              (example_args (Some [peer0])) (example_env good_endorsement)
              peer0 [] _ _ [order_success] [] [] tt _ _ _ _))); reflexivity.
Defined.

(** ** lib/createFabricClient.js *)

(** The bootstrap resolves only when the key-value store is obtained and
    every configuration call returns, after opening both stores on the
    same path; otherwise it rejects with the first error, and the call
    that failed is the last one made. *)
Theorem createFabricClient_stops_at_first_failure (keyStorePath : string)
    (env : KeyStoreClient.ClientEnv) :
  KeyStoreClient.createFabricClient keyStorePath env =
  match KeyStoreClient.first_failure (KeyStoreClient.answers env) with
  | None => (KeyStoreClient.full_bootstrap keyStorePath, Resolved tt)
  | Some (n, e) =>
      (firstn (n + 2) (KeyStoreClient.full_bootstrap keyStorePath), Rejected e)
  end.
Proof.
  destruct env as [a1 a2 a3 a4 a5 a6].
  destruct a1 as [[]|e1]; [|reflexivity].
  destruct a2 as [[]|e2]; [|reflexivity].
  destruct a3 as [[]|e3]; [|reflexivity].
  destruct a4 as [[]|e4]; [|reflexivity].
  destruct a5 as [[]|e5]; [|reflexivity].
  destruct a6 as [[]|e6]; reflexivity.
Qed.
